(** * mangum: the AWS Application Load Balancer handler

    A shallow embedding of [mangum/handlers/aws_alb.py] and of the parts of
    the Python standard library it calls ([urllib.parse], [base64], the UTF-8
    codec), followed by the properties of the handler.

    Conventions of the embedding:
    - a Python [str] is the list of its code points, a [bytes] object the list
      of its byte values (numbers below 256);
    - a Python [dict] is an association list in insertion order with unique
      keys ([dict_set] overwrites in place, as [d[k] = v] does);
    - a Python function that can raise returns a [result];
    - a generator is the list of the values it yields, in order. *)

From Stdlib Require Import String Ascii NArith ZArith Lia Bool List.
Import ListNotations.
Open Scope N_scope.

(** ** Python values *)

Abbreviation str := (list N) (only parsing).
Abbreviation bytes := (list N) (only parsing).

(** A string literal of the source, as a [str]. *)
Definition lit (s : string) : str := map N_of_ascii (list_ascii_of_string s).

Definition str_eqb (a b : str) : bool :=
  if list_eq_dec N.eq_dec a b then true else false.

(** Exceptions the modelled code paths raise. *)
Inductive exn : Type :=
| KeyError (key : str)
| ValueError
| BinasciiError
| UnicodeEncodeError
| UnicodeDecodeError.

Inductive result (A : Type) : Type :=
| Ok (a : A)
| Raise (e : exn).
Arguments Ok {A} a.
Arguments Raise {A} e.

Definition bind {A B} (r : result A) (k : A -> result B) : result B :=
  match r with
  | Ok a => k a
  | Raise e => Raise e
  end.

Declare Scope py_scope.
Delimit Scope py_scope with py.
Notation "x <- r ;; k" := (bind r (fun x => k))
  (at level 61, r at next level, right associativity) : py_scope.
Notation "' p <- r ;; k" := (bind r (fun x => let p := x in k))
  (at level 61, p pattern, r at next level, right associativity) : py_scope.
Open Scope py_scope.

Fixpoint mapM {A B} (f : A -> result B) (l : list A) : result (list B) :=
  match l with
  | [] => Ok []
  | a :: l' => b <- f a ;; bs <- mapM f l' ;; Ok (b :: bs)
  end.

(** ** Dictionaries *)

Abbreviation dict V := (list (list N * V)) (only parsing).

Section Dict.
Context {V : Type}.

Fixpoint dict_get (d : dict V) (k : str) : option V :=
  match d with
  | [] => None
  | (k', v) :: d' => if str_eqb k' k then Some v else dict_get d' k
  end.

(** [d[k] = v]: an existing key keeps its position, a new key goes last. *)
Fixpoint dict_set (d : dict V) (k : str) (v : V) : dict V :=
  match d with
  | [] => [(k, v)]
  | (k', v') :: d' =>
      if str_eqb k' k then (k', v) :: d' else (k', v') :: dict_set d' k v
  end.

(** [del d[k]] for a key that is present. *)
Fixpoint dict_del (d : dict V) (k : str) : dict V :=
  match d with
  | [] => []
  | (k', v') :: d' => if str_eqb k' k then d' else (k', v') :: dict_del d' k
  end.

Definition dict_keys (d : dict V) : list str := map fst d.
End Dict.

(** ** Builtins whose tables are not part of the program

    [str.lower], [str.upper] and [int] follow the Unicode tables of the
    interpreter; the handler is modelled over any such functions. *)

Class Builtins : Type := {
  str_lower : str -> str;
  str_upper : str -> str;
  py_int : str -> result Z
}.

(** ** [all_casings] *)

Fixpoint all_casings `{Builtins} (input_string : str) : list str :=
  match input_string with
  | [] => [[]]
  | c :: rest =>
      let first := [c] in
      if str_eqb (str_lower first) (str_upper first) then
        map (fun sub_casing => first ++ sub_casing) (all_casings rest)
      else
        flat_map (fun sub_casing =>
                    [str_lower first ++ sub_casing; str_upper first ++ sub_casing])
                 (all_casings rest)
  end.

(** ** The UTF-8 codec

    [str.encode()] and [bytes.decode()] use UTF-8.  Encoding is strict: a
    surrogate code point raises.  Decoding yields one item per code point or
    per ill-formed maximal subpart ([None]); [errors='replace'] turns the
    latter into U+FFFD, the strict mode raises. *)

Definition utf8_encode_char (c : N) : result bytes :=
  if c <? 0x80 then Ok [c]
  else if c <? 0x800 then Ok [0xC0 + c / 64; 0x80 + c mod 64]
  else if c <? 0x10000 then
    if (0xD800 <=? c) && (c <? 0xE000) then Raise UnicodeEncodeError
    else Ok [0xE0 + c / 4096; 0x80 + (c / 64) mod 64; 0x80 + c mod 64]
  else if c <? 0x110000 then
    Ok [0xF0 + c / 262144; 0x80 + (c / 4096) mod 64;
        0x80 + (c / 64) mod 64; 0x80 + c mod 64]
  else Raise UnicodeEncodeError.

Definition utf8_encode (s : str) : result bytes :=
  chunks <- mapM utf8_encode_char s ;; Ok (concat chunks).

Inductive utf8_state : Type :=
| U_start
| U_cont (need : nat) (acc lo hi : N).

Inductive utf8_lead_kind : Type :=
| L_emit (c : N)
| L_enter (st : utf8_state)
| L_bad.

Definition utf8_lead (b : N) : utf8_lead_kind :=
  if b <? 0x80 then L_emit b
  else if b <? 0xC2 then L_bad
  else if b <? 0xE0 then L_enter (U_cont 1 (b - 0xC0) 0x80 0xBF)
  else if b =? 0xE0 then L_enter (U_cont 2 0 0xA0 0xBF)
  else if b =? 0xED then L_enter (U_cont 2 (b - 0xE0) 0x80 0x9F)
  else if b <? 0xF0 then L_enter (U_cont 2 (b - 0xE0) 0x80 0xBF)
  else if b =? 0xF0 then L_enter (U_cont 3 0 0x90 0xBF)
  else if b <? 0xF4 then L_enter (U_cont 3 (b - 0xF0) 0x80 0xBF)
  else if b =? 0xF4 then L_enter (U_cont 3 (b - 0xF0) 0x80 0x8F)
  else L_bad.

Fixpoint utf8_scan (st : utf8_state) (bs : bytes) : list (option N) :=
  match bs with
  | [] => match st with U_start => [] | U_cont _ _ _ _ => [None] end
  | b :: bs' =>
      let fresh :=
        match utf8_lead b with
        | L_emit c => Some c :: utf8_scan U_start bs'
        | L_enter st' => utf8_scan st' bs'
        | L_bad => None :: utf8_scan U_start bs'
        end in
      match st with
      | U_start => fresh
      | U_cont need acc lo hi =>
          if (lo <=? b) && (b <=? hi) then
            let acc' := acc * 64 + (b - 0x80) in
            match need with
            | S (S n) => utf8_scan (U_cont (S n) acc' 0x80 0xBF) bs'
            | _ => Some acc' :: utf8_scan U_start bs'
            end
          else None :: fresh
      end
  end.

Definition REPLACEMENT_CHARACTER : N := 0xFFFD.

(** [bs.decode('utf-8', 'replace')] *)
Definition utf8_decode_replace (bs : bytes) : str :=
  map (fun item => match item with Some c => c | None => REPLACEMENT_CHARACTER end)
      (utf8_scan U_start bs).

(** [bs.decode()] *)
Definition utf8_decode (bs : bytes) : result str :=
  mapM (fun item => match item with Some c => Ok c | None => Raise UnicodeDecodeError end)
       (utf8_scan U_start bs).

(** ** [urllib.parse] *)

Module Chr.
Definition space : N := 32.
Definition percent : N := 37.
Definition amp : N := 38.
Definition plus : N := 43.
Definition colon : N := 58.
Definition equals : N := 61.
End Chr.

(** [s.split(sep)] for a one-character separator. *)
Fixpoint split (sep : N) (s : list N) : list (list N) :=
  match s with
  | [] => [[]]
  | c :: s' =>
      if c =? sep then [] :: split sep s'
      else match split sep s' with
           | piece :: pieces => (c :: piece) :: pieces
           | [] => [[c]]
           end
  end.

(** [sep.join(pieces)] *)
Fixpoint join (sep : list N) (pieces : list (list N)) : list N :=
  match pieces with
  | [] => []
  | [piece] => piece
  | piece :: pieces' => piece ++ sep ++ join sep pieces'
  end.

(** [s.replace(a, b)] for one-character [a] and [b]. *)
Definition replace (a b : N) (s : list N) : list N :=
  map (fun c => if c =? a then b else c) s.

(** [c in s] *)
Definition contains (c : N) (s : list N) : bool := existsb (N.eqb c) s.

Definition between (lo hi c : N) : bool := (lo <=? c) && (c <=? hi).

Definition hexdigit_value (c : N) : option N :=
  if between 48 57 c then Some (c - 48)
  else if between 65 70 c then Some (c - 55)
  else if between 97 102 c then Some (c - 87)
  else None.

(** [_hextobyte[item[:2]]]; [None] stands for the [KeyError]. *)
Definition hextobyte (item : bytes) : option N :=
  match item with
  | a :: b :: _ =>
      match hexdigit_value a, hexdigit_value b with
      | Some x, Some y => Some (16 * x + y)
      | _, _ => None
      end
  | _ => None
  end.

(** [unquote_to_bytes], on the UTF-8 encoding of its argument ([unquote]
    calls it on runs of ASCII characters, which are their own encoding). *)
Definition unquote_to_bytes (string : bytes) : bytes :=
  match split Chr.percent string with
  | [] => string
  | [_] => string
  | first :: items =>
      first ++
      flat_map (fun item =>
                  match hextobyte item with
                  | Some byte => byte :: skipn 2 item
                  | None => Chr.percent :: item
                  end) items
  end.

(** The loop of [unquote] over [_asciire.split(string)]: [run] is the run of
    ASCII characters read so far, in reverse. *)
Definition unquote_run (run : str) : str :=
  utf8_decode_replace (unquote_to_bytes (rev run)).

Fixpoint unquote_parts (run : str) (string : str) : str :=
  match string with
  | [] => unquote_run run
  | c :: string' =>
      if c <? 0x80 then unquote_parts (c :: run) string'
      else unquote_run run ++ c :: unquote_parts [] string'
  end.

Definition unquote (string : str) : str :=
  if negb (contains Chr.percent string) then string
  else unquote_parts [] string.

Definition unquote_plus (string : str) : str :=
  unquote (replace Chr.plus Chr.space string).

(** [_ALWAYS_SAFE]: letters, digits and [_.-~]. *)
Definition always_safe (b : N) : bool :=
  between 65 90 b || between 97 122 b || between 48 57 b
  || (b =? 95) || (b =? 46) || (b =? 45) || (b =? 126).

Definition hex_upper (d : N) : N := if d <? 10 then 48 + d else 55 + d.

(** [_Quoter.__missing__] *)
Definition quoter (safe : str) (b : N) : str :=
  if always_safe b || contains b safe then [b]
  else [Chr.percent; hex_upper (b / 16); hex_upper (b mod 16)].

(** [quote_from_bytes]; its two shortcuts (empty input, nothing to quote)
    return what the general path returns. *)
Definition quote_from_bytes (bs : bytes) (safe : str) : str :=
  flat_map (quoter safe) bs.

Definition quote (string : str) (safe : str) : result str :=
  bs <- utf8_encode string ;; Ok (quote_from_bytes bs safe).

Definition quote_plus (string : str) : result str :=
  if negb (contains Chr.space string) then quote string []
  else string' <- quote string [Chr.space] ;;
       Ok (replace Chr.space Chr.plus string').

(** [urlencode(query)] for a list of pairs of strings. *)
Definition urlencode (query : list (str * str)) : result str :=
  l <- mapM (fun '(k, v) =>
               k' <- quote_plus k ;;
               v' <- quote_plus v ;;
               Ok (k' ++ [Chr.equals] ++ v')) query ;;
  Ok (join [Chr.amp] l).

(** ** [base64] *)

Definition BASE64_PAD : N := 61.

(** [table_a2b_base64]; [None] for a character outside the alphabet. *)
Definition table_a2b_base64 (c : N) : option N :=
  if between 65 90 c then Some (c - 65)
  else if between 97 122 c then Some (c - 71)
  else if between 48 57 c then Some (c + 4)
  else if c =? 43 then Some 62
  else if c =? 47 then Some 63
  else None.

(** The loop of [binascii.a2b_base64] with [strict_mode] off: characters
    outside the alphabet are skipped, a pad sequence that completes a quad
    ends the input, and data that stops inside a quad raises. *)
Fixpoint a2b_base64_loop (quad_pos : nat) (leftchar : N) (pads : nat)
         (ascii_data : bytes) : result bytes :=
  match ascii_data with
  | [] => match quad_pos with O => Ok [] | _ => Raise BinasciiError end
  | this_ch :: rest =>
      if this_ch =? BASE64_PAD then
        if (2 <=? quad_pos)%nat then
          if (4 <=? quad_pos + S pads)%nat then Ok []
          else a2b_base64_loop quad_pos leftchar (S pads) rest
        else a2b_base64_loop quad_pos leftchar pads rest
      else
        match table_a2b_base64 this_ch with
        | None => a2b_base64_loop quad_pos leftchar pads rest
        | Some this_ch =>
            match quad_pos with
            | 0%nat => a2b_base64_loop 1 this_ch 0 rest
            | 1%nat =>
                out <- a2b_base64_loop 2 (N.land this_ch 0x0f) 0 rest ;;
                Ok (N.lor (N.shiftl leftchar 2) (N.shiftr this_ch 4) :: out)
            | 2%nat =>
                out <- a2b_base64_loop 3 (N.land this_ch 0x03) 0 rest ;;
                Ok (N.lor (N.shiftl leftchar 4) (N.shiftr this_ch 2) :: out)
            | _ =>
                out <- a2b_base64_loop 0 0 0 rest ;;
                Ok (N.lor (N.shiftl leftchar 6) this_ch :: out)
            end
        end
  end.

Definition a2b_base64 (data : bytes) : result bytes :=
  a2b_base64_loop 0 0 0 data.

(** A value that is a [str] or a [bytes] object. *)
Inductive str_or_bytes : Type :=
| Str (s : str)
| Bytes (b : bytes).

(** [_bytes_from_decode_data]: a [str] must be ASCII. *)
Definition bytes_from_decode_data (s : str_or_bytes) : result bytes :=
  match s with
  | Str s => if forallb (fun c => c <? 0x80) s then Ok s else Raise ValueError
  | Bytes b => Ok b
  end.

Definition b64decode (s : str_or_bytes) : result bytes :=
  s <- bytes_from_decode_data s ;; a2b_base64 s.

(** ** The invocation event, the request, the response and the reply *)

(** A value of [queryStringParameters] or [multiValueQueryStringParameters]:
    a string, or a list of strings. *)
Inductive query_value : Type :=
| QStr (value : str)
| QList (values : list str).

Module Event.
(** The keys of the event the handler reads.  For a key read with
    [event[...]] or tested with [in], [None] is the missing key; for a key
    read with [event.get(...)], [None] is the missing key or [null].
    [path] tells a missing key ([None]) from [null] ([Some None]).
    [isBase64Encoded] is the truth value of
    [event.get("isBase64Encoded", False)]. *)
Record t : Type := {
  path : option (option str);
  httpMethod : option str;
  headers : option (dict str);
  queryStringParameters : option (dict query_value);
  multiValueQueryStringParameters : option (dict query_value);
  body : option str;
  isBase64Encoded : bool;
  multiValueHeaders : option (dict (list str))
}.
End Event.

Module Request.
Record t : Type := {
  method : str;
  headers : list (bytes * bytes);
  path : str;
  scheme : str;
  query_string : bytes;
  server : str * Z;
  client : str * Z;
  trigger_event : Event.t;
  trigger_context : N;
  event_type : str
}.
End Request.

Module Response.
Record t : Type := {
  status : Z;
  headers : list (bytes * bytes);
  body : bytes
}.
End Response.

(** The dictionary [transform_response] returns. *)
Module Reply.
Record t : Type := {
  statusCode : Z;
  headers : dict str;
  multiValueHeaders : dict (list str);
  body : str;
  isBase64Encoded : bool
}.
End Reply.

(** The methods [AwsAlb] inherits from [AbstractHandler]
    ([mangum/handlers/abstract_handler.py]). *)
Class AbstractHandler : Type := {
  _handle_multi_value_headers :
    list (bytes * bytes) -> result (dict str * dict (list str));
  _handle_base64_response_body : bytes -> dict str -> result (str * bool)
}.

(** ** [AwsAlb] *)

Module AwsAlb.

Record t : Type := {
  trigger_event : Event.t;
  trigger_context : N
}.

Definition TYPE : str := lit "AWS_ALB".

Section Methods.
Context {B : Builtins} {H : AbstractHandler}.

(** The loop of [encode_query_string] over [params.items()], which
    fills [query]. *)
Definition query_pairs (params : dict query_value) : list (str * str) :=
  flat_map (fun '(key, value) =>
              match value with
              | QList value =>
                  map (fun v => (unquote_plus key, unquote_plus v)) value
              | QStr value => [(unquote_plus key, unquote_plus value)]
              end) params.

Definition encode_query_string (self : t) : result bytes :=
  let params := Event.multiValueQueryStringParameters (trigger_event self) in
  let params :=
    match params with
    | None | Some [] => Event.queryStringParameters (trigger_event self)
    | Some _ => params
    end in
  match params with
  | None | Some [] => Ok []
  | Some params =>
      let query := query_pairs params in
      s <- urlencode query ;; utf8_encode s
  end.

(** [server_port] before [int(server_port)]: the default [80] or a
    string. *)
Definition int (server_port : Z + str) : result Z :=
  match server_port with
  | inl n => Ok n
  | inr s => py_int s
  end.

(** [headers] of [request]: empty, or the dict comprehension over the
    items of [event["headers"]]. *)
Definition lower_headers (event : Event.t) : dict str :=
  match Event.headers event with
  | None | Some [] => []
  | Some items =>
      fold_left (fun headers '(k, v) => dict_set headers (str_lower k) v)
                items []
  end.

Definition request (self : t) : result Request.t :=
  let event := trigger_event self in
  let headers := lower_headers event in
  let source_ip :=
    match dict_get headers (lit "x-forwarded-for") with
    | Some v => v
    | None => []
    end in
  path <- match Event.path event with
          | Some path => Ok path
          | None => Raise (KeyError (lit "path"))
          end ;;
  http_method <- match Event.httpMethod event with
                 | Some m => Ok m
                 | None => Raise (KeyError (lit "httpMethod"))
                 end ;;
  query_string <- encode_query_string self ;;
  let server_name :=
    match dict_get headers (lit "host") with
    | Some v => v
    | None => lit "mangum"
    end in
  '(server_name, server_port) <-
    (if negb (contains Chr.colon server_name) then
       Ok (server_name,
           match dict_get headers (lit "x-forwarded-port") with
           | Some v => inr v
           | None => inl 80%Z
           end)
     else
       match split Chr.colon server_name with
       | [server_name; server_port] => Ok (server_name, inr server_port)
       | _ => Raise ValueError
       end) ;;
  server_port <- int server_port ;;
  let server := (server_name, server_port) in
  let client := (source_ip, 0%Z) in
  let path :=
    match path with
    | None | Some [] => lit "/"
    | Some path => path
    end in
  headers' <- mapM (fun '(k, v) =>
                      k' <- utf8_encode k ;;
                      v' <- utf8_encode v ;;
                      Ok (k', v')) headers ;;
  Ok {| Request.method := http_method;
        Request.headers := headers';
        Request.path := unquote path;
        Request.scheme :=
          match dict_get headers (lit "x-forwarded-proto") with
          | Some v => v
          | None => lit "https"
          end;
        Request.query_string := query_string;
        Request.server := server;
        Request.client := client;
        Request.trigger_event := trigger_event self;
        Request.trigger_context := trigger_context self;
        Request.event_type := TYPE |}.

Definition body (self : t) : result bytes :=
  let body :=
    match Event.body (trigger_event self) with
    | None | Some [] => Bytes []
    | Some s => Str s
    end in
  if Event.isBase64Encoded (trigger_event self) then b64decode body
  else match body with
       | Str s => utf8_encode s
       | Bytes b => Ok b
       end.

Definition handle_headers (self : t) (response_headers : list (bytes * bytes))
  : result (dict str * dict (list str)) :=
  '(headers, multi_value_headers) <-
    _handle_multi_value_headers response_headers ;;
  match Event.multiValueHeaders (trigger_event self) with
  | None =>
      let headers :=
        fold_left
          (fun headers '(key, values) =>
             if (1 <? length values)%nat then
               fold_left (fun headers '(value, cased_key) =>
                            dict_set headers cased_key value)
                         (combine values (all_casings key)) headers
             else headers)
          multi_value_headers headers in
      Ok (headers, [])
  | Some _ => Ok (headers, multi_value_headers)
  end.

Definition transform_response (self : t) (response : Response.t)
  : result Reply.t :=
  '(headers, multi_value_headers) <-
    handle_headers self (Response.headers response) ;;
  '(body, is_base64_encoded) <-
    _handle_base64_response_body (Response.body response) headers ;;
  Ok {| Reply.statusCode := Response.status response;
        Reply.headers := headers;
        Reply.multiValueHeaders := multi_value_headers;
        Reply.body := body;
        Reply.isBase64Encoded := is_base64_encoded |}.

End Methods.
End AwsAlb.

(** ** Instances *)

(** [str.lower], [str.upper] and [int] on ASCII strings.  Outside ASCII the
    case mappings below leave a character as it is and [ascii_int] raises;
    the examples that use this instance are ASCII. *)
Definition ascii_lower (c : N) : N := if between 65 90 c then c + 32 else c.
Definition ascii_upper (c : N) : N := if between 97 122 c then c - 32 else c.

(** [Py_ISSPACE] *)
Definition is_space (c : N) : bool := between 9 13 c || (c =? 32).

Fixpoint lstrip (s : str) : str :=
  match s with
  | c :: s' => if is_space c then lstrip s' else s
  | [] => []
  end.

Definition strip (s : str) : str := rev (lstrip (rev (lstrip s))).

(** Decimal digits, with single underscores between digits. *)
Fixpoint int_digits (acc : Z) (after_digit : bool) (s : str) : result Z :=
  match s with
  | [] => if after_digit then Ok acc else Raise ValueError
  | c :: s' =>
      if between 48 57 c then int_digits (10 * acc + Z.of_N (c - 48)) true s'
      else if (c =? 95) && after_digit then int_digits acc false s'
      else Raise ValueError
  end.

Definition ascii_int (s : str) : result Z :=
  match strip s with
  | c :: s' =>
      if c =? 45 then n <- int_digits 0 false s' ;; Ok (- n)%Z
      else if c =? 43 then int_digits 0 false s'
      else int_digits 0 false (c :: s')
  | [] => Raise ValueError
  end.

#[export] Instance ascii_builtins : Builtins := {|
  str_lower := map ascii_lower;
  str_upper := map ascii_upper;
  py_int := ascii_int
|}.

(** Modelled from the spec: [AbstractHandler._handle_multi_value_headers]
    ([mangum/handlers/abstract_handler.py] is not among the sources).  The
    spec: "partition the response's header pairs into a single-valued map
    (last-seen value wins when not duplicated) and a multi-value map (ordered
    list of all values per lower-cased name)".  A name seen once is in the
    single-valued map; from its second occurrence on it is in the multi-value
    map only, with all its values in order. *)
Definition spec_handle_multi_value_headers `{Builtins}
    (response_headers : list (bytes * bytes))
  : result (dict str * dict (list str)) :=
  fold_left
    (fun acc '(key, value) =>
       '(headers, multi_value_headers) <- acc ;;
       key <- utf8_decode key ;;
       value <- utf8_decode value ;;
       let lower_key := str_lower key in
       match dict_get multi_value_headers lower_key with
       | Some values =>
           Ok (headers, dict_set multi_value_headers lower_key (values ++ [value]))
       | None =>
           match dict_get headers lower_key with
           | Some first =>
               Ok (dict_del headers lower_key,
                   dict_set multi_value_headers lower_key [first; value])
           | None => Ok (dict_set headers lower_key value, multi_value_headers)
           end
       end)
    response_headers (Ok ([], [])).

(** The handler with the header partition of the spec and any
    [_handle_base64_response_body]. *)
Definition spec_handler `{Builtins}
    (handle_base64_response_body : bytes -> dict str -> result (str * bool))
  : AbstractHandler := {|
  _handle_multi_value_headers := spec_handle_multi_value_headers;
  _handle_base64_response_body := handle_base64_response_body
|}.

(** * Definitions for the statements *)

(** ** Casings *)

(** A character [all_casings] branches on: its lower and upper case
    differ. *)
Definition cased {B : Builtins} (c : N) : bool :=
  negb (str_eqb (str_lower [c]) (str_upper [c])).

Definition count_cased {B : Builtins} (s : str) : nat := length (filter cased s).

(** ** Response headers *)

Definition set_cookie_headers : list (bytes * bytes) :=
  [(lit "Set-Cookie", lit "a"); (lit "Set-Cookie", lit "b")].

(** An event with the two required keys only. *)
Definition minimal_event : Event.t := {|
  Event.path := Some (Some (lit "/"));
  Event.httpMethod := Some (lit "GET");
  Event.headers := None;
  Event.queryStringParameters := None;
  Event.multiValueQueryStringParameters := None;
  Event.body := None;
  Event.isBase64Encoded := false;
  Event.multiValueHeaders := None
|}.

(** The handler of an event. *)
Definition handler_of (event : Event.t) : AwsAlb.t :=
  {| AwsAlb.trigger_event := event; AwsAlb.trigger_context := 0 |}.


(** ** The request *)

(** The value of the last item of [items] whose lower-cased name is
    [name]. *)
Definition last_value {B : Builtins} (name : str) (items : dict str) : option str :=
  fold_left (fun acc '(k, v) => if str_eqb (str_lower k) name then Some v else acc)
            items None.

(** The items of [event["headers"]]. *)
Definition source_headers (event : Event.t) : dict str :=
  match Event.headers event with
  | Some items => items
  | None => []
  end.

(** [[k.encode(), v.encode()]] *)
Definition encode_pair : str * str -> result (bytes * bytes) :=
  fun '(k, v) => k' <- utf8_encode k ;; v' <- utf8_encode v ;; Ok (k', v').

(** [path] of [request] after [if not path: path = "/"]. *)
Definition path_or_slash (path : option str) : str :=
  match path with
  | None | Some [] => lit "/"
  | Some path => path
  end.

(** The dict comprehension of [request], from any dictionary. *)
Definition lower_fold {B : Builtins} (items : dict str) (headers : dict str) : dict str :=
  fold_left (fun headers '(k, v) => dict_set headers (str_lower k) v) items headers.

(** Events that differ from [minimal_event] in one key. *)
Definition event_with_headers (headers : dict str) : Event.t := {|
  Event.path := Some (Some (lit "/"));
  Event.httpMethod := Some (lit "GET");
  Event.headers := Some headers;
  Event.queryStringParameters := None;
  Event.multiValueQueryStringParameters := None;
  Event.body := None;
  Event.isBase64Encoded := false;
  Event.multiValueHeaders := None
|}.

(** Two headers that differ in case only. *)
Definition accept_twice : dict str :=
  [(lit "Accept", lit "a"); (lit "accept", lit "b")].

Definition event_with_path (path : option (option str)) : Event.t := {|
  Event.path := path;
  Event.httpMethod := Some (lit "GET");
  Event.headers := None;
  Event.queryStringParameters := None;
  Event.multiValueQueryStringParameters := None;
  Event.body := None;
  Event.isBase64Encoded := false;
  Event.multiValueHeaders := None
|}.

Definition forwarded_port_event : Event.t :=
  event_with_headers [(lit "X-Forwarded-Port", lit "443")].

(** ** Base64 *)

(** The base64 alphabet. *)
Definition table_b2a_base64 (n : N) : N :=
  if n <? 26 then 65 + n
  else if n <? 52 then 71 + n
  else if n <? 62 then n - 4
  else if n =? 62 then 43
  else 47.

(** Standard base64 (RFC 4648) with padding, what [base64.b64encode]
    produces: the encoding of a payload the load balancer sends with
    [isBase64Encoded]. *)
Fixpoint b64encode (s : bytes) : bytes :=
  match s with
  | [] => []
  | [a] =>
      [table_b2a_base64 (N.shiftr a 2);
       table_b2a_base64 (N.shiftl (N.land a 3) 4);
       BASE64_PAD; BASE64_PAD]
  | [a; b] =>
      [table_b2a_base64 (N.shiftr a 2);
       table_b2a_base64 (N.lor (N.shiftl (N.land a 3) 4) (N.shiftr b 4));
       table_b2a_base64 (N.shiftl (N.land b 0xf) 2);
       BASE64_PAD]
  | a :: b :: c :: rest =>
      table_b2a_base64 (N.shiftr a 2)
      :: table_b2a_base64 (N.lor (N.shiftl (N.land a 3) 4) (N.shiftr b 4))
      :: table_b2a_base64 (N.lor (N.shiftl (N.land b 0xf) 2) (N.shiftr c 6))
      :: table_b2a_base64 (N.land c 0x3f)
      :: b64encode rest
  end.

(** The number of characters of the base64 alphabet in [s]. *)
Definition data_chars (s : bytes) : nat :=
  length (filter (fun c => match table_a2b_base64 c with
                           | Some _ => true
                           | None => false
                           end) s).

(** The values of a byte. *)
Definition octets : list N := map N.of_nat (seq 0 256).

(** A character of the alphabet decodes to its sextet. *)
Definition is_sextet_of (n c : N) : bool :=
  match table_a2b_base64 c with
  | Some m => (m =? n) && negb (c =? BASE64_PAD) && (c <? 0x80)
  | None => false
  end.

(** The four sextets of three bytes. *)
Definition sextet1 (a : N) : N := N.shiftr a 2.
Definition sextet2 (a b : N) : N := N.lor (N.shiftl (N.land a 3) 4) (N.shiftr b 4).
Definition sextet3 (b c : N) : N := N.lor (N.shiftl (N.land b 0xf) 2) (N.shiftr c 6).
Definition sextet4 (c : N) : N := N.land c 0x3f.

Definition event_with_body (body : option str) (is_base64_encoded : bool) : Event.t := {|
  Event.path := Some (Some (lit "/"));
  Event.httpMethod := Some (lit "POST");
  Event.headers := None;
  Event.queryStringParameters := None;
  Event.multiValueQueryStringParameters := None;
  Event.body := body;
  Event.isBase64Encoded := is_base64_encoded;
  Event.multiValueHeaders := None
|}.

Definition event_with_query (single multi : option (dict query_value)) : Event.t := {|
  Event.path := Some (Some (lit "/"));
  Event.httpMethod := Some (lit "GET");
  Event.headers := None;
  Event.queryStringParameters := single;
  Event.multiValueQueryStringParameters := multi;
  Event.body := None;
  Event.isBase64Encoded := false;
  Event.multiValueHeaders := None
|}.

(** [not params] *)
Definition falsy {V} (params : option (dict V)) : Prop :=
  params = None \/ params = Some [].

(** ** The query string: decoding what was encoded *)

(** A Unicode scalar value: a code point that is not a surrogate.  Text
    that was decoded from UTF-8 holds nothing else. *)
Definition is_scalar (c : N) : bool :=
  (c <? 0xD800) || ((0xE000 <=? c) && (c <? 0x110000)).

Definition well_formed (s : str) : Prop := Forall (fun c => is_scalar c = true) s.

Definition is_ascii (s : list N) : Prop := Forall (fun c => c < 0x80) s.




(** The body of the loop of [unquote_to_bytes] over [bits[1:]]. *)
Definition unquote_item (item : bytes) : bytes :=
  match hextobyte item with
  | Some byte => byte :: skipn 2 item
  | None => Chr.percent :: item
  end.

(** *** [quote_plus], byte by byte *)

(** What [quote_plus] writes for one byte of the encoded string. *)
Definition plus_token (has_space : bool) (b : N) : list N :=
  if has_space then replace Chr.space Chr.plus (quoter [Chr.space] b)
  else quoter [] b.

(** A token is ASCII, has no [&] and no [=], and after [+] is read as a
    space it is the byte itself or its percent escape. *)
Definition token_ok (b : N) (token : list N) : bool :=
  forallb (fun c => (c <? 0x80) && negb (c =? Chr.amp) && negb (c =? Chr.equals)) token
  && match replace Chr.plus Chr.space token with
     | [c] => (c =? b) && negb (c =? Chr.percent)
     | [p; h1; h2] =>
         (p =? Chr.percent)
         && match hextobyte [h1; h2] with
            | Some b' => b' =? b
            | None => false
            end
     | _ => false
     end.

(** *** Form decoding *)

(** [s.split(sep, 1)], as a pair; the second part is empty without [sep]. *)
Fixpoint split_first (sep : N) (s : list N) : list N * list N :=
  match s with
  | [] => ([], [])
  | c :: s' =>
      if c =? sep then ([], s')
      else let '(a, b) := split_first sep s' in (c :: a, b)
  end.

(** The pair of one piece of a query string; an empty piece has none. *)
Definition form_piece (name_value : list N) : list (str * str) :=
  match name_value with
  | [] => []
  | _ => let '(name, value) := split_first Chr.equals name_value in
         [(unquote_plus name, unquote_plus value)]
  end.


(** The parameters [encode_query_string] reads. *)
Definition selected_params (event : Event.t) : dict query_value :=
  match Event.multiValueQueryStringParameters event with
  | Some (item :: items) => item :: items
  | _ => match Event.queryStringParameters event with
         | Some params => params
         | None => []
         end
  end.


(** A pair and the piece [urlencode] writes for it. *)
Definition encodes_pair (kv : str * str) (piece : list N) : Prop :=
  is_ascii piece /\ contains Chr.amp piece = false /\ form_piece piece = [kv].

(** Parameters that arrive encoded, with a malformed escape among them. *)
Definition encoded_query_event : Event.t :=
  event_with_query
    (Some [(lit "q", QStr (lit "a%20b+c")); (lit "x y", QStr (lit "1&2=3"));
           (lit "k", QStr (lit "%E2%82%AC%ff"))])
    None.

(** ** Values past the casings *)

(** The loop of [handle_headers] over the items of the multi-value map. *)
Definition write_casings {B : Builtins}
    (headers : dict str) (item : str * list str) : dict str :=
  let '(key, values) := item in
  if (1 <? length values)%nat then
    fold_left (fun headers '(value, cased_key) => dict_set headers cased_key value)
              (combine values (all_casings key)) headers
  else headers.

(** A header with one cased character, three times. *)
Definition three_values : list (bytes * bytes) :=
  [(lit "X", lit "a"); (lit "X", lit "b"); (lit "X", lit "c")].


(** * Definitions for further properties *)

(** An ASCII letter. *)
Definition is_letter (c : N) : bool := between 65 90 c || between 97 122 c.


(** The inner loop of [handle_headers]: [pairs] is
    [zip(values, all_casings(key))]. *)
Definition write_pairs (pairs : list (str * str)) (headers : dict str) : dict str :=
  fold_left (fun headers '(value, cased_key) => dict_set headers cased_key value)
            pairs headers.

(** A response with the header [X] twice, and one header beside. *)
Definition two_values_and_one : list (bytes * bytes) :=
  [(lit "Content-Type", lit "text/plain"); (lit "X", lit "a"); (lit "X", lit "b")].

(** [headers.get(name, default)] *)
Definition header_or (headers : dict str) (name default : str) : str :=
  match dict_get headers name with
  | Some v => v
  | None => default
  end.

(** [[k.decode(), v.decode()]], what the application does with a header of
    the request. *)
Definition decode_pair : bytes * bytes -> result (str * str) :=
  fun '(k, v) => k' <- utf8_decode k ;; v' <- utf8_decode v ;; Ok (k', v').

(** An event behind a proxy, with header names in mixed case. *)
Definition forwarded_event : Event.t :=
  event_with_headers
    [(lit "X-Forwarded-For", lit "10.0.0.1"); (lit "X-Forwarded-Proto", lit "http");
     (lit "Host", lit "example.com:8443"); (lit "x-forwarded-for", lit "10.0.0.2")].

(** A host that is an IPv6 address with a port. *)
Definition ipv6_host_event : Event.t :=
  event_with_headers [(lit "Host", lit "[::1]:8080")].

(** A character of the query string [urlencode] writes: unreserved, or one
    of [+ % = &]. *)
Definition query_char (c : N) : bool :=
  always_safe c || (c =? Chr.plus) || (c =? Chr.percent)
  || (c =? Chr.equals) || (c =? Chr.amp).

(** A character the base64 decoder reads: the pad, or one of the alphabet. *)
Definition base64_char (c : N) : bool :=
  (c =? BASE64_PAD)
  || match table_a2b_base64 c with Some _ => true | None => false end.

(** What [query.append] gets: the pairs, well-formed. *)
Definition pairs_well_formed (query : list (str * str)) : Prop :=
  Forall (fun '(k, v) => well_formed k /\ well_formed v) query.

(** The encoding of some text by [quote_plus]. *)
Definition encoded (s : str) : Prop := exists text, quote_plus text = Ok s.

Definition params_encoded (params : dict query_value) : Prop :=
  Forall (fun '(key, value) =>
            encoded key /\
            match value with
            | QStr v => encoded v
            | QList vs => Forall encoded vs
            end) params.

(** The parameters as they are written in a query string: [key=value] for
    each value. *)
Definition param_pieces (item : str * query_value) : list (list N) :=
  let '(key, value) := item in
  match value with
  | QStr v => [key ++ [Chr.equals] ++ v]
  | QList vs => map (fun v => key ++ [Chr.equals] ++ v) vs
  end.

(** Parameters that arrive encoded once: a space as [+], the rest escaped. *)
Definition encoded_once_event : Event.t :=
  event_with_query
    (Some [(lit "q", QStr (lit "a+b%26c")); (lit "x%3Dy", QStr (lit "%E2%82%AC"))])
    None.

(** A header with a surrogate code point in its value. *)
Definition surrogate_header_event : Event.t :=
  event_with_headers [(lit "X-Tag", [0xD800])].

(** A base64 payload broken over two lines. *)
Definition wrapped_base64_event : Event.t :=
  event_with_body (Some (lit "aGVs" ++ [10] ++ lit "bG8=" ++ [10])) true.

(** * Lemmas and theorems *)

(** ** The embedding on examples *)

Example utf8_euro :
  utf8_encode [0x20AC] = Ok [0xE2; 0x82; 0xAC].
Proof. reflexivity. Qed.

Example utf8_dec1 :
  utf8_decode_replace [0xE2; 0x82; 0xAC; 0xE2; 0x82; 0x28; 0xC0; 0x80; 0xF0; 0x9F]
  = [0x20AC; 0xFFFD; 0x28; 0xFFFD; 0xFFFD; 0xFFFD].
Proof. reflexivity. Qed.

Example unquote_ex1 :
  unquote (lit "/a%20b") = lit "/a b".
Proof. reflexivity. Qed.

Example unquote_ex2 :
  unquote (lit "/a%2520b%zz%4") = lit "/a%20b%zz%4".
Proof. reflexivity. Qed.

Example unquote_ex3 :
  unquote_plus (lit "a+b%2Bc%e2%82%ac%ff") = lit "a b+c" ++ [0x20AC; 0xFFFD].
Proof. reflexivity. Qed.

Example urlencode_ex1 :
  urlencode [(lit "a b", lit "x&y=z"); ([0x20AC], lit "~/")]
  = Ok (lit "a+b=x%26y%3Dz&%E2%82%AC=~%2F").
Proof. reflexivity. Qed.

Example b64decode_hello :
  b64decode (Str (lit "aGVsbG8=")) = Ok (lit "hello").
Proof. reflexivity. Qed.

Example b64decode_ws :
  b64decode (Str (lit "aGVs bG8")) = Raise BinasciiError.
Proof. reflexivity. Qed.

Example b64decode_ws2 :
  b64decode (Str (lit "aGVs" ++ [10] ++ lit "bG8h")) = Ok (lit "hello!").
Proof. reflexivity. Qed.

Example ascii_int_ex1 :
  ascii_int (lit " 8_080 ") = Ok 8080%Z.
Proof. reflexivity. Qed.

Example ascii_int_ex2 :
  ascii_int (lit "80a") = Raise ValueError.
Proof. reflexivity. Qed.

Example all_casings_ex1 :
  all_casings (lit "a-b") = [lit "a-b"; lit "A-b"; lit "a-B"; lit "A-B"].
Proof. reflexivity. Qed.

(** ** Strings and the codec *)

Lemma str_eqb_eq (a b : str) : str_eqb a b = true <-> a = b.
Proof.
  unfold str_eqb. destruct (list_eq_dec N.eq_dec a b); split; congruence.
Qed.

Lemma str_eqb_refl (a : str) : str_eqb a a = true.
Proof. now apply str_eqb_eq. Qed.

Lemma str_eqb_neq (a b : str) : str_eqb a b = false <-> a <> b.
Proof.
  unfold str_eqb. destruct (list_eq_dec N.eq_dec a b); split; congruence.
Qed.

Ltac btest :=
  repeat match goal with
  | |- context [?a <? ?b] => destruct (N.ltb_spec a b); try lia
  | |- context [?a <=? ?b] => destruct (N.leb_spec a b); try lia
  | |- context [?a =? ?b] => destruct (N.eqb_spec a b); try lia
  | |- context [andb _ _] => cbn [andb]
  end.

(** Names the quotients and remainders of the goal, keeping their defining
    equations, so that the arithmetic left is linear. *)
Ltac name_one_divmod a b :=
  let q := fresh "q" in
  let r := fresh "r" in
  pose proof (N.div_mod a b ltac:(discriminate));
  pose proof (N.mod_lt a b ltac:(discriminate));
  set (q := a / b) in *; set (r := a mod b) in *; clearbody q r.

Ltac name_divmod :=
  repeat match goal with
  | |- context [?a mod ?b] => name_one_divmod a b
  | |- context [?a / ?b] => name_one_divmod a b
  | _ : context [?a mod ?b] |- _ => name_one_divmod a b
  | _ : context [?a / ?b] |- _ => name_one_divmod a b
  end.

Local Opaque N.add N.mul N.div N.modulo N.sub N.ltb N.leb N.eqb.

Lemma utf8_scan_encode_char c bs rest :
  utf8_encode_char c = Ok bs ->
  utf8_scan U_start (bs ++ rest) = Some c :: utf8_scan U_start rest.
Proof.
  unfold utf8_encode_char.
  destruct (N.ltb_spec c 0x80).
  { intros [= <-]. cbn [app utf8_scan]. unfold utf8_lead. btest. reflexivity. }
  destruct (N.ltb_spec c 0x800).
  { intros [= <-]. cbn [app utf8_scan]. unfold utf8_lead. name_divmod. btest.
    cbn [andb]. do 2 f_equal. lia. }
  destruct (N.ltb_spec c 0x10000).
  { destruct (N.leb_spec 0xD800 c); destruct (N.ltb_spec c 0xE000);
      cbn [andb]; try discriminate; intros [= <-];
      cbn [app utf8_scan]; unfold utf8_lead; name_divmod; btest; cbn [andb]; btest;
      cbn [andb]; do 2 f_equal; lia. }
  destruct (N.ltb_spec c 0x110000); [|discriminate].
  intros [= <-]; cbn [app utf8_scan]; unfold utf8_lead; name_divmod;
    btest; cbn [andb]; btest; cbn [andb]; btest; cbn [andb]; do 2 f_equal; lia.
Qed.

Local Transparent N.add N.mul N.div N.modulo N.sub N.ltb N.leb N.eqb.

(** ** Properties of [all_casings] *)

Section Casings.
Context {B : Builtins}.

Lemma all_casings_cased c rest :
  cased c = true ->
  all_casings (c :: rest) =
  flat_map (fun sub => [str_lower [c] ++ sub; str_upper [c] ++ sub])
           (all_casings rest).
Proof.
  unfold cased. cbn [all_casings].
  destruct (str_eqb (str_lower [c]) (str_upper [c])); [discriminate|reflexivity].
Qed.

Lemma all_casings_uncased c rest :
  cased c = false ->
  all_casings (c :: rest) = map (cons c) (all_casings rest).
Proof.
  unfold cased. cbn [all_casings].
  destruct (str_eqb (str_lower [c]) (str_upper [c])); [reflexivity|discriminate].
Qed.

Lemma length_flat_map_pair {A X} (f g : A -> X) (l : list A) :
  length (flat_map (fun a => [f a; g a]) l) = (2 * length l)%nat.
Proof. induction l; cbn [flat_map app length]; lia. Qed.

Lemma nth_flat_map_pair {A X} (f g : A -> X) (l : list A) (i : nat) (d : A) (dx : X) :
  (i < length l)%nat ->
  nth (2 * i) (flat_map (fun a => [f a; g a]) l) dx = f (nth i l d) /\
  nth (2 * i + 1) (flat_map (fun a => [f a; g a]) l) dx = g (nth i l d).
Proof.
  revert i. induction l as [|a l IH]; intros i Hi; cbn [length] in Hi; [lia|].
  destruct i as [|i].
  - split; reflexivity.
  - replace (2 * S i)%nat with (S (S (2 * i))) by lia.
    replace (S (S (2 * i)) + 1)%nat with (S (S (2 * i + 1))) by lia.
    cbn [flat_map app nth]. apply IH. lia.
Qed.

Lemma length_all_casings (s : str) :
  length (all_casings s) = (2 ^ count_cased s)%nat.
Proof.
  unfold count_cased.
  induction s as [|c rest IH]; [reflexivity|].
  cbn [filter]. destruct (cased c) eqn:Hc.
  - rewrite all_casings_cased by assumption.
    rewrite length_flat_map_pair, IH. cbn [length Nat.pow]. lia.
  - rewrite all_casings_uncased by assumption.
    now rewrite length_map.
Qed.

Lemma all_casings_nonempty (s : str) : (0 < length (all_casings s))%nat.
Proof.
  rewrite length_all_casings.
  assert (2 ^ count_cased s <> 0)%nat by (apply Nat.pow_nonzero; lia). lia.
Qed.

(** The writes of one duplicated header: the values paired with the
    casings of its name. *)
Lemma combine_values_casings {V} (values : list V) (key : str) :
  combine values (all_casings key) =
  combine (firstn (length (all_casings key)) values) (all_casings key).
Proof.
  generalize (all_casings key) as cs. revert values.
  induction values as [|v vs IH]; intros [|c cs]; cbn; try reflexivity.
  now rewrite <- IH.
Qed.
End Casings.

(** ** Response headers *)

(** (C1) Without the key [multiValueHeaders] in the event, the reply to a
    response with the headers [Set-Cookie: a], [Set-Cookie: b] has the
    single-valued headers [set-cookie: a], [Set-cookie: b] and nothing else:
    two keys, two distinct casings of [set-cookie]; its multi-value map is
    empty. *)
Theorem transform_response_set_cookie_casings
    (handle_base64_response_body : bytes -> dict str -> result (str * bool))
    (self : AwsAlb.t) (response : Response.t) (body : str) (flag : bool) :
  Event.multiValueHeaders (AwsAlb.trigger_event self) = None ->
  Response.headers response = set_cookie_headers ->
  handle_base64_response_body (Response.body response)
    [(lit "set-cookie", lit "a"); (lit "Set-cookie", lit "b")] = Ok (body, flag) ->
  exists reply,
    AwsAlb.transform_response (H := spec_handler handle_base64_response_body)
      self response = Ok reply /\
    Reply.headers reply = [(lit "set-cookie", lit "a"); (lit "Set-cookie", lit "b")] /\
    Reply.multiValueHeaders reply = [] /\
    NoDup (dict_keys (Reply.headers reply)) /\
    Forall (fun k => In k (all_casings (lit "set-cookie")))
           (dict_keys (Reply.headers reply)).
Proof.
  intros Hmv Hh Hb.
  unfold AwsAlb.transform_response, AwsAlb.handle_headers.
  rewrite Hmv, Hh.
  change (_handle_multi_value_headers set_cookie_headers)
    with (Ok (@nil (list N * list N), [(lit "set-cookie", [lit "a"; lit "b"])])).
  cbn [bind].
  match goal with
  | |- context [_handle_base64_response_body _ ?h] =>
      change h with [(lit "set-cookie", lit "a"); (lit "Set-cookie", lit "b")]
  end.
  cbn [_handle_base64_response_body spec_handler]. rewrite Hb. cbn [bind].
  eexists. split; [reflexivity|]. cbn [Reply.headers Reply.multiValueHeaders].
  repeat split.
  - repeat constructor; cbn; intuition discriminate.
  - repeat constructor; vm_compute; tauto.
Qed.

Lemma transform_response_set_cookie_casings_witness :
  exists reply,
    AwsAlb.transform_response (H := spec_handler (fun _ _ => Ok ([], false)))
      (handler_of minimal_event)
      {| Response.status := 200; Response.headers := set_cookie_headers;
         Response.body := [] |} = Ok reply /\
    Reply.headers reply = [(lit "set-cookie", lit "a"); (lit "Set-cookie", lit "b")] /\
    Reply.multiValueHeaders reply = [] /\
    NoDup (dict_keys (Reply.headers reply)) /\
    Forall (fun k => In k (all_casings (lit "set-cookie")))
           (dict_keys (Reply.headers reply)).
Proof.
  apply (transform_response_set_cookie_casings (fun _ _ => Ok ([], false))
           (handler_of minimal_event) _ [] false); reflexivity.
Defined.





(** ** Dictionaries, [mapM] and the codec: lemmas *)

Section DictFacts.
Context {V : Type}.
Implicit Types (d : dict V) (k : str) (v : V).

Lemma dict_get_set_eq d k v : dict_get (dict_set d k v) k = Some v.
Proof.
  induction d as [|[k' v'] d IH]; cbn.
  - now rewrite str_eqb_refl.
  - destruct (str_eqb k' k) eqn:E; cbn; rewrite E; auto.
Qed.

Lemma dict_get_set_neq d k k' v :
  k <> k' -> dict_get (dict_set d k v) k' = dict_get d k'.
Proof.
  intros Hne. induction d as [|[k0 v0] d IH]; cbn.
  - apply str_eqb_neq in Hne. now rewrite Hne.
  - destruct (str_eqb k0 k) eqn:E; cbn.
    + apply str_eqb_eq in E. subst k0.
      apply str_eqb_neq in Hne. now rewrite Hne.
    + now rewrite IH.
Qed.

Lemma dict_get_In d k v : dict_get d k = Some v -> In (k, v) d.
Proof.
  induction d as [|[k0 v0] d IH]; cbn; [discriminate|].
  destruct (str_eqb k0 k) eqn:E.
  - apply str_eqb_eq in E. intros [= ->]. left. now subst.
  - intros Hg. right. auto.
Qed.

Lemma In_dict_get d k v :
  NoDup (dict_keys d) -> In (k, v) d -> dict_get d k = Some v.
Proof.
  unfold dict_keys.
  induction d as [|[k0 v0] d IH]; cbn; [tauto|].
  intros Hnd [Hin|Hin].
  - injection Hin as -> ->. now rewrite str_eqb_refl.
  - inversion Hnd as [|? ? Hnotin Hnd']; subst.
    destruct (str_eqb k0 k) eqn:E.
    + apply str_eqb_eq in E. subst k0. exfalso. apply Hnotin.
      change k with (fst (k, v)). now apply in_map.
    + auto.
Qed.

Lemma dict_keys_set d k v :
  dict_keys (dict_set d k v) =
  match dict_get d k with
  | Some _ => dict_keys d
  | None => dict_keys d ++ [k]
  end.
Proof.
  unfold dict_keys. induction d as [|[k0 v0] d IH]; cbn; [reflexivity|].
  destruct (str_eqb k0 k) eqn:E; cbn; [reflexivity|].
  rewrite IH. now destruct (dict_get d k).
Qed.

Lemma dict_get_None_keys d k : dict_get d k = None -> ~ In k (dict_keys d).
Proof.
  unfold dict_keys. induction d as [|[k0 v0] d IH]; cbn; [tauto|].
  destruct (str_eqb k0 k) eqn:E; [discriminate|].
  apply str_eqb_neq in E. intros Hg [Heq|Hin]; [congruence|]. now apply IH.
Qed.

Lemma NoDup_dict_set d k v :
  NoDup (dict_keys d) -> NoDup (dict_keys (dict_set d k v)).
Proof.
  intros Hnd. rewrite dict_keys_set.
  destruct (dict_get d k) eqn:E; [assumption|].
  apply NoDup_app; [assumption|repeat constructor; cbn; tauto|].
  intros x Hx [Hk|[]]. subst x. now apply (dict_get_None_keys d k).
Qed.
End DictFacts.

Lemma mapM_Forall2 {A X} (f : A -> result X) (l : list A) (l' : list X) :
  mapM f l = Ok l' <-> Forall2 (fun a b => f a = Ok b) l l'.
Proof.
  revert l'. induction l as [|a l IH]; intros l'; cbn.
  - split; [intros [= <-]; constructor|intros Hf; now inversion Hf].
  - destruct (f a) as [b|e] eqn:Ea; cbn.
    + destruct (mapM f l) as [bs|e] eqn:El; cbn.
      * split.
        -- intros [= <-]. constructor; [assumption|now apply IH].
        -- intros Hf. inversion Hf as [|? b' ? bs' Hb Hbs]; subst.
           apply IH in Hbs. congruence.
      * split; [discriminate|].
        intros Hf. inversion Hf as [|? b' ? bs' Hb Hbs]; subst.
        apply IH in Hbs. discriminate.
    + split; [discriminate|].
      intros Hf. inversion Hf; subst. congruence.
Qed.

Lemma Forall2_In_r {A X} (R : A -> X -> Prop) (l : list A) (l' : list X) (b : X) :
  Forall2 R l l' -> In b l' -> exists a, In a l /\ R a b.
Proof.
  induction 1 as [|a b' l l' Hab Hrest IH]; cbn; [tauto|].
  intros [<-|Hin]; [eauto|].
  destruct (IH Hin) as [a' [Ha' HR]]. eauto.
Qed.

Lemma Forall2_In_l {A X} (R : A -> X -> Prop) (l : list A) (l' : list X) (a : A) :
  Forall2 R l l' -> In a l -> exists b, In b l' /\ R a b.
Proof.
  induction 1 as [|a' b l l' Hab Hrest IH]; cbn; [tauto|].
  intros [<-|Hin]; [eauto|].
  destruct (IH Hin) as [b' [Hb' HR]]. eauto.
Qed.

Lemma utf8_scan_encode (s : str) (bs rest : bytes) :
  utf8_encode s = Ok bs ->
  utf8_scan U_start (bs ++ rest) = map Some s ++ utf8_scan U_start rest.
Proof.
  unfold utf8_encode. revert bs.
  induction s as [|c s IH]; intros bs; cbn [mapM].
  - intros [= <-]. reflexivity.
  - destruct (utf8_encode_char c) as [b|e] eqn:Ec; [|discriminate]. cbn [bind].
    destruct (mapM utf8_encode_char s) as [chunks|e] eqn:Es; [|discriminate].
    cbn [bind]. intros [= <-]. cbn [concat]. rewrite <- app_assoc.
    rewrite (utf8_scan_encode_char _ _ _ Ec). cbn [map app]. f_equal.
    now apply IH.
Qed.

(** Decoding undoes encoding, in both modes of the decoder. *)
Lemma utf8_decode_replace_encode (s : str) (bs : bytes) :
  utf8_encode s = Ok bs -> utf8_decode_replace bs = s.
Proof.
  intros He. unfold utf8_decode_replace.
  rewrite <- (app_nil_r bs), (utf8_scan_encode _ _ [] He). cbn [utf8_scan].
  rewrite app_nil_r, map_map. apply map_id.
Qed.

Lemma utf8_encode_inj (s s' : str) (bs : bytes) :
  utf8_encode s = Ok bs -> utf8_encode s' = Ok bs -> s = s'.
Proof.
  intros H1 H2. apply utf8_decode_replace_encode in H1, H2. congruence.
Qed.

(** ** The request *)

Section RequestFacts.
Context {B : Builtins}.

Lemma lower_headers_fold (event : Event.t) :
  AwsAlb.lower_headers event = lower_fold (source_headers event) [].
Proof.
  unfold AwsAlb.lower_headers, source_headers, lower_fold.
  destruct (Event.headers event) as [[|item items]|]; reflexivity.
Qed.

Lemma last_value_cons name k v items :
  last_value name ((k, v) :: items) =
  match last_value name items with
  | Some v' => Some v'
  | None => if str_eqb (str_lower k) name then Some v else None
  end.
Proof.
  unfold last_value. cbn [fold_left].
  generalize (if str_eqb (str_lower k) name then Some v else None) as acc.
  induction items as [|[k' v'] items IH]; intros acc; cbn [fold_left].
  - now destruct acc.
  - rewrite IH. rewrite (IH (if str_eqb (str_lower k') name then Some v' else None)).
    destruct (fold_left _ items None); [reflexivity|].
    now destruct (str_eqb (str_lower k') name), acc.
Qed.

Lemma dict_get_lower_fold items headers name :
  dict_get (lower_fold items headers) name =
  match last_value name items with
  | Some v => Some v
  | None => dict_get headers name
  end.
Proof.
  revert headers. induction items as [|[k v] items IH]; intros headers.
  - reflexivity.
  - rewrite last_value_cons. unfold lower_fold in *. cbn [fold_left]. rewrite IH.
    destruct (last_value name items); [reflexivity|].
    destruct (str_eqb (str_lower k) name) eqn:E.
    + apply str_eqb_eq in E. subst name. apply dict_get_set_eq.
    + apply str_eqb_neq in E. now apply dict_get_set_neq.
Qed.

Lemma NoDup_lower_fold items headers :
  NoDup (dict_keys headers) -> NoDup (dict_keys (lower_fold items headers)).
Proof.
  revert headers. unfold lower_fold.
  induction items as [|[k v] items IH]; intros headers Hnd; [assumption|].
  cbn [fold_left]. apply IH. now apply NoDup_dict_set.
Qed.

Lemma last_value_In name items v :
  last_value name items = Some v ->
  exists k, In (k, v) items /\ str_lower k = name.
Proof.
  induction items as [|[k0 v0] items IH]; [discriminate|].
  rewrite last_value_cons.
  destruct (last_value name items) as [v'|].
  - intros [= ->]. destruct (IH eq_refl) as [k [Hin Hk]].
    exists k. split; [now right|assumption].
  - destruct (str_eqb (str_lower k0) name) eqn:E; [|discriminate].
    intros [= ->]. apply str_eqb_eq in E. exists k0. split; [now left|assumption].
Qed.

Lemma In_last_value k v items :
  In (k, v) items -> exists v', last_value (str_lower k) items = Some v'.
Proof.
  induction items as [|[k0 v0] items IH]; [intros []|].
  rewrite last_value_cons. intros [Heq|Hin].
  - injection Heq as -> ->. rewrite str_eqb_refl.
    destruct (last_value (str_lower k) items); eauto.
  - destruct (IH Hin) as [v' ->]. eauto.
Qed.

(** What [request] has computed when it returns. *)
Lemma request_inv (self : AwsAlb.t) (r : Request.t) :
  AwsAlb.request self = Ok r ->
  exists path http_method query_string server_name server_port port headers',
    Event.path (AwsAlb.trigger_event self) = Some path /\
    Event.httpMethod (AwsAlb.trigger_event self) = Some http_method /\
    AwsAlb.encode_query_string self = Ok query_string /\
    (let headers := AwsAlb.lower_headers (AwsAlb.trigger_event self) in
     let server_name0 :=
       match dict_get headers (lit "host") with
       | Some v => v
       | None => lit "mangum"
       end in
     (if negb (contains Chr.colon server_name0) then
        Ok (server_name0,
            match dict_get headers (lit "x-forwarded-port") with
            | Some v => inr v
            | None => inl 80%Z
            end)
      else
        match split Chr.colon server_name0 with
        | [server_name; server_port] => Ok (server_name, inr server_port)
        | _ => Raise ValueError
        end) = Ok (server_name, server_port)) /\
    AwsAlb.int server_port = Ok port /\
    mapM encode_pair (AwsAlb.lower_headers (AwsAlb.trigger_event self)) = Ok headers' /\
    Request.method r = http_method /\
    Request.headers r = headers' /\
    Request.path r = unquote (path_or_slash path) /\
    Request.query_string r = query_string /\
    Request.server r = (server_name, port).
Proof.
  unfold AwsAlb.request.
  destruct (Event.path (AwsAlb.trigger_event self)) as [path|]; [|discriminate].
  destruct (Event.httpMethod (AwsAlb.trigger_event self)) as [m|]; [|discriminate].
  cbn [bind].
  destruct (AwsAlb.encode_query_string self) as [qs|e]; [|discriminate].
  cbn [bind].
  match goal with
  | |- bind ?sel _ = _ -> _ => destruct sel as [[sn sp]|e] eqn:Esel; [|discriminate]
  end.
  cbn [bind].
  destruct (AwsAlb.int sp) as [port|e] eqn:Eint; [|discriminate].
  cbn [bind].
  match goal with
  | |- bind ?m _ = _ -> _ =>
      change m with (mapM encode_pair (AwsAlb.lower_headers (AwsAlb.trigger_event self)));
      destruct (mapM encode_pair (AwsAlb.lower_headers (AwsAlb.trigger_event self)))
        as [hs|e] eqn:Ehs; [|discriminate]
  end.
  cbn [bind]. intros [= <-].
  exists path, m, qs, sn, sp, port, hs. cbn.
  repeat split; try reflexivity; try assumption.
Qed.
End RequestFacts.

(** (C4, as stated) Two source headers that differ in case only are not
    kept as two pairs: the request has one pair, with the second value. *)
Lemma request_headers_duplicates_collapse :
  exists r,
    AwsAlb.request (handler_of (event_with_headers accept_twice)) = Ok r /\
    Request.headers r = [(lit "accept", lit "b")] /\
    Request.headers r <> [(lit "accept", lit "a"); (lit "accept", lit "b")].
Proof. eexists. split; [reflexivity|]. split; [reflexivity|discriminate]. Qed.

(** (C4, amended) In the request produced from an event, every header name
    is the lower-cased name of a source header, no name occurs twice, every
    source header's name is there, and the value of a name is the value of the
    last source header with that lower-cased name: source headers that differ
    in case only collapse into one pair. *)
Theorem request_headers_lower_case {B : Builtins} (self : AwsAlb.t) (r : Request.t) :
  AwsAlb.request self = Ok r ->
  let source := source_headers (AwsAlb.trigger_event self) in
  Forall (fun '(name, value) =>
            exists k v,
              In (k, v) source /\
              utf8_encode (str_lower k) = Ok name /\
              utf8_encode v = Ok value /\
              last_value (str_lower k) source = Some v)
         (Request.headers r)
  /\ NoDup (map fst (Request.headers r))
  /\ (forall k v, In (k, v) source ->
        exists name value,
          utf8_encode (str_lower k) = Ok name /\ In (name, value) (Request.headers r)).
Proof.
  intros Hr source.
  destruct (request_inv _ _ Hr)
    as (path & m & qs & sn & sp & port & hs & _ & _ & _ & _ & _ & Hhs & _ & Hh & _).
  rewrite Hh. clear Hh Hr.
  rewrite lower_headers_fold in Hhs. fold source in Hhs.
  apply mapM_Forall2 in Hhs.
  assert (Hget := fun name => dict_get_lower_fold source [] name).
  assert (Hnd : NoDup (dict_keys (lower_fold source []))) 
    by (apply NoDup_lower_fold; constructor).
  set (d := lower_fold source []) in *. clearbody d.
  split; [|split].
  - (* every pair comes from the last source header of its name *)
    apply Forall_forall. intros [name value] Hin.
    destruct (Forall2_In_r _ _ _ _ Hhs Hin) as [[k' v'] [Hin' Henc]].
    unfold encode_pair in Henc.
    destruct (utf8_encode k') as [n|] eqn:Ek; [|discriminate].
    destruct (utf8_encode v') as [w|] eqn:Ev; [|discriminate].
    cbn in Henc. injection Henc as <- <-.
    pose proof (In_dict_get _ _ _ Hnd Hin') as Hg. rewrite Hget in Hg.
    destruct (last_value k' source) as [v0|] eqn:El; [|discriminate].
    injection Hg as ->.
    destruct (last_value_In _ _ _ El) as [k [Hk Hlow]]. subst k'.
    exists k, v'. auto.
  - (* no name twice *)
    clear Hget. revert Hnd. unfold dict_keys.
    induction Hhs as [|[k v] [n w] d hs Henc Hrest IH]; intros Hnd; cbn; [constructor|].
    inversion Hnd as [|? ? Hnotin Hnd']; subst.
    constructor; [|now apply IH].
    intros Hin. apply Hnotin. apply in_map_iff in Hin.
    destruct Hin as [[n' w'] [Hn Hin]]. cbn in Hn. subst n'.
    destruct (Forall2_In_r _ _ _ _ Hrest Hin) as [[k' v'] [Hin' Henc']].
    unfold encode_pair in Henc, Henc'.
    destruct (utf8_encode k) as [x|] eqn:Ek; [|discriminate].
    destruct (utf8_encode v) as [y|] eqn:Ev; [|discriminate].
    destruct (utf8_encode k') as [x'|] eqn:Ek'; [|discriminate].
    destruct (utf8_encode v') as [y'|] eqn:Ev'; [|discriminate].
    cbn in Henc, Henc'. injection Henc as -> ->. injection Henc' as -> ->.
    rewrite (utf8_encode_inj _ _ _ Ek Ek').
    change k' with (fst (k', v')). now apply in_map.
  - (* every source name is there *)
    intros k v Hin.
    destruct (In_last_value _ _ _ Hin) as [v' Hl].
    assert (Hg : dict_get d (str_lower k) = Some v') by (rewrite Hget, Hl; reflexivity).
    apply dict_get_In in Hg.
    destruct (Forall2_In_l _ _ _ _ Hhs Hg) as [[n w] [Hin' Henc]].
    unfold encode_pair in Henc.
    destruct (utf8_encode (str_lower k)) as [x|] eqn:Ek; [|discriminate].
    destruct (utf8_encode v') as [y|] eqn:Ev; [|discriminate].
    cbn in Henc. injection Henc as <- <-. eauto.
Qed.

Lemma request_headers_lower_case_witness :
  exists r,
    AwsAlb.request (handler_of (event_with_headers accept_twice)) = Ok r /\
    NoDup (map fst (Request.headers r)).
Proof.
  eexists. split; [reflexivity|].
  match goal with
  | |- NoDup (map fst (Request.headers ?r)) =>
      destruct (request_headers_lower_case
                  (handler_of (event_with_headers accept_twice)) r)
        as [_ [Hnd _]]; [reflexivity|exact Hnd]
  end.
Defined.

(** ** The path *)

Lemma request_missing_path {B : Builtins} (self : AwsAlb.t) :
  Event.path (AwsAlb.trigger_event self) = None ->
  AwsAlb.request self = Raise (KeyError (lit "path")).
Proof. intros Hp. unfold AwsAlb.request. now rewrite Hp. Qed.

(** An event with a method, no headers and no query parameters gives a
    request, whatever its path is. *)
Lemma request_event_with_path {B : Builtins} (path : option str) (context : N) :
  exists r,
    AwsAlb.request {| AwsAlb.trigger_event := event_with_path (Some path);
                      AwsAlb.trigger_context := context |} = Ok r /\
    Request.path r = unquote (path_or_slash path).
Proof.
  eexists. split; [reflexivity|]. cbn [Request.path].
  now destruct path as [[|c p]|].
Qed.

(** (C8, as stated) An event with no [path] key is not normalized to [/]:
    [request] raises. *)
Lemma request_missing_path_raises :
  AwsAlb.request (handler_of (event_with_path None)) = Raise (KeyError (lit "path")).
Proof. reflexivity. Qed.

(** (C8, amended) The path of the request is the path of the event
    percent-decoded once, [/] when the event's path is empty or null; an
    event with no [path] key gives no request, [request] raises [KeyError].
    So [""] gives [/], [/a%20b] gives [/a b], and [/a%2520b], encoded twice,
    gives [/a%20b]. *)
Theorem request_path_decoded_once {B : Builtins} (self : AwsAlb.t) :
  (forall r,
     AwsAlb.request self = Ok r ->
     exists path,
       Event.path (AwsAlb.trigger_event self) = Some path /\
       Request.path r = unquote (path_or_slash path))
  /\ (Event.path (AwsAlb.trigger_event self) = None ->
      AwsAlb.request self = Raise (KeyError (lit "path")))
  /\ (forall path context,
        exists r,
          AwsAlb.request {| AwsAlb.trigger_event := event_with_path (Some path);
                            AwsAlb.trigger_context := context |} = Ok r /\
          Request.path r = unquote (path_or_slash path))
  /\ unquote (path_or_slash (Some [])) = lit "/"
  /\ unquote (path_or_slash None) = lit "/"
  /\ unquote (path_or_slash (Some (lit "/a%20b"))) = lit "/a b"
  /\ unquote (path_or_slash (Some (lit "/a%2520b"))) = lit "/a%20b".
Proof.
  split.
  { intros r Hr.
    destruct (request_inv _ _ Hr)
      as (path & m & qs & sn & sp & port & hs & Hp & _ & _ & _ & _ & _ & _ & _ & Hpath & _).
    eauto. }
  split; [apply request_missing_path|].
  split; [apply request_event_with_path|].
  repeat split; reflexivity.
Qed.

Lemma request_path_decoded_once_witness :
  exists path,
    Event.path (event_with_path (Some (Some (lit "/a%20b")))) = Some path /\
    lit "/a b" = unquote (path_or_slash path).
Proof.
  destruct (request_path_decoded_once
              (handler_of (event_with_path (Some (Some (lit "/a%20b"))))))
    as [Hr _].
  destruct (request_event_with_path (B := ascii_builtins) (Some (lit "/a%20b")) 0)
    as [r [Hreq Hpath]].
  destruct (Hr r Hreq) as [path [Hp Hq]].
  exists path. split; [exact Hp|]. rewrite <- Hq. rewrite Hpath. reflexivity.
Defined.

(** ** The server *)

(** (C10) When the lower-cased headers of the event have no [host], the
    server of the request is [mangum] with the port [int] makes of the
    [x-forwarded-port] header, or 80 without that header. *)
Theorem request_server_default {B : Builtins} (self : AwsAlb.t) (r : Request.t) :
  AwsAlb.request self = Ok r ->
  let headers := AwsAlb.lower_headers (AwsAlb.trigger_event self) in
  dict_get headers (lit "host") = None ->
  match dict_get headers (lit "x-forwarded-port") with
  | Some v => exists port, py_int v = Ok port /\ Request.server r = (lit "mangum", port)
  | None => Request.server r = (lit "mangum", 80%Z)
  end.
Proof.
  intros Hr headers Hhost.
  destruct (request_inv _ _ Hr)
    as (path & m & qs & sn & sp & port & hs & _ & _ & _ & Hsel & Hint & _ & _ & _ & _ & _ & Hs).
  cbv zeta in Hsel. fold headers in Hsel. rewrite Hhost in Hsel.
  change (negb (contains Chr.colon (lit "mangum"))) with true in Hsel.
  cbv iota in Hsel. injection Hsel as <- <-.
  destruct (dict_get headers (lit "x-forwarded-port")) as [v|].
  - exists port. split; assumption.
  - cbn in Hint. injection Hint as <-. assumption.
Qed.

Lemma request_server_default_witness :
  exists r,
    AwsAlb.request (handler_of forwarded_port_event) = Ok r /\
    exists port, ascii_int (lit "443") = Ok port /\
                 Request.server r = (lit "mangum", port).
Proof.
  eexists. split; [reflexivity|].
  match goal with
  | |- exists port, _ /\ Request.server ?r = _ =>
      assert (Hr : AwsAlb.request (handler_of forwarded_port_event) = Ok r)
        by reflexivity;
      exact (request_server_default (handler_of forwarded_port_event) r Hr eq_refl)
  end.
Defined.

(** ** Base64 *)

Example b64encode_hello : b64encode (lit "hello") = lit "aGVsbG8=". Proof. reflexivity. Qed.

Lemma In_octets (a : N) : a < 256 -> In a octets.
Proof.
  intros Ha. unfold octets. apply in_map_iff. exists (N.to_nat a).
  split; [apply N2Nat.id|]. apply in_seq. lia.
Qed.

Lemma forall_octets (P : N -> bool) :
  forallb P octets = true -> forall a, a < 256 -> P a = true.
Proof.
  intros HP a Ha. rewrite forallb_forall in HP. apply HP. now apply In_octets.
Qed.

Lemma forall_octets2 (P : N -> N -> bool) :
  forallb (fun a => forallb (P a) octets) octets = true ->
  forall a b, a < 256 -> b < 256 -> P a b = true.
Proof.
  intros HP a b Ha Hb.
  apply (forall_octets (P a)); [|assumption].
  now apply (forall_octets (fun a => forallb (P a) octets)).
Qed.

Lemma is_sextet_of_spec n c :
  is_sextet_of n c = true ->
  table_a2b_base64 c = Some n /\ (c =? BASE64_PAD) = false /\ (c <? 0x80) = true.
Proof.
  unfold is_sextet_of. destruct (table_a2b_base64 c) as [m|]; [|discriminate].
  intros Hc. apply andb_prop in Hc. destruct Hc as [Hc H3].
  apply andb_prop in Hc. destruct Hc as [H1 H2].
  apply N.eqb_eq in H1. subst m. apply negb_true_iff in H2. auto.
Qed.

Lemma sextet1_ok a :
  a < 256 -> is_sextet_of (sextet1 a) (table_b2a_base64 (sextet1 a)) = true.
Proof.
  apply (forall_octets
           (fun a => is_sextet_of (sextet1 a) (table_b2a_base64 (sextet1 a)))).
  vm_compute; reflexivity.
Qed.

Lemma sextet2_ok a b :
  a < 256 -> b < 256 ->
  is_sextet_of (sextet2 a b) (table_b2a_base64 (sextet2 a b)) = true.
Proof.
  apply (forall_octets2
           (fun a b =>
              is_sextet_of (sextet2 a b) (table_b2a_base64 (sextet2 a b)))).
  vm_compute; reflexivity.
Qed.

Lemma sextet3_ok b c :
  b < 256 -> c < 256 ->
  is_sextet_of (sextet3 b c) (table_b2a_base64 (sextet3 b c)) = true.
Proof.
  apply (forall_octets2
           (fun b c =>
              is_sextet_of (sextet3 b c) (table_b2a_base64 (sextet3 b c)))).
  vm_compute; reflexivity.
Qed.

Lemma sextet4_ok c :
  c < 256 -> is_sextet_of (sextet4 c) (table_b2a_base64 (sextet4 c)) = true.
Proof.
  apply (forall_octets
           (fun c => is_sextet_of (sextet4 c) (table_b2a_base64 (sextet4 c)))).
  vm_compute; reflexivity.
Qed.

(** The three bytes the decoder writes for a quad. *)
Lemma byte1_ok a b :
  a < 256 -> b < 256 ->
  (N.lor (N.shiftl (sextet1 a) 2) (N.shiftr (sextet2 a b) 4) =? a)
  && (N.land (sextet2 a b) 0x0f =? N.shiftr b 4) = true.
Proof.
  apply (forall_octets2
           (fun a b => (N.lor (N.shiftl (sextet1 a) 2) (N.shiftr (sextet2 a b) 4) =? a)
                       && (N.land (sextet2 a b) 0x0f =? N.shiftr b 4))).
  vm_compute; reflexivity.
Qed.

Lemma byte2_ok b c :
  b < 256 -> c < 256 ->
  (N.lor (N.shiftl (N.shiftr b 4) 4) (N.shiftr (sextet3 b c) 2) =? b)
  && (N.land (sextet3 b c) 0x03 =? N.shiftr c 6) = true.
Proof.
  apply (forall_octets2
           (fun b c => (N.lor (N.shiftl (N.shiftr b 4) 4) (N.shiftr (sextet3 b c) 2) =? b)
                       && (N.land (sextet3 b c) 0x03 =? N.shiftr c 6))).
  vm_compute; reflexivity.
Qed.

Lemma byte3_ok c :
  c < 256 -> (N.lor (N.shiftl (N.shiftr c 6) 6) (sextet4 c) =? c) = true.
Proof.
  apply (forall_octets (fun c => N.lor (N.shiftl (N.shiftr c 6) 6) (sextet4 c) =? c)).
  vm_compute; reflexivity.
Qed.

Lemma tail1_ok a :
  a < 256 ->
  is_sextet_of (N.shiftl (N.land a 3) 4) (table_b2a_base64 (N.shiftl (N.land a 3) 4))
  && (N.lor (N.shiftl (sextet1 a) 2) (N.shiftr (N.shiftl (N.land a 3) 4) 4) =? a) = true.
Proof.
  apply (forall_octets
           (fun a =>
              is_sextet_of (N.shiftl (N.land a 3) 4)
                           (table_b2a_base64 (N.shiftl (N.land a 3) 4))
              && (N.lor (N.shiftl (sextet1 a) 2)
                        (N.shiftr (N.shiftl (N.land a 3) 4) 4) =? a))).
  vm_compute; reflexivity.
Qed.

Lemma tail2_ok b :
  b < 256 ->
  is_sextet_of (N.shiftl (N.land b 0xf) 2) (table_b2a_base64 (N.shiftl (N.land b 0xf) 2))
  && (N.lor (N.shiftl (N.shiftr b 4) 4) (N.shiftr (N.shiftl (N.land b 0xf) 2) 2) =? b)
  = true.
Proof.
  apply (forall_octets
           (fun b =>
              is_sextet_of (N.shiftl (N.land b 0xf) 2)
                           (table_b2a_base64 (N.shiftl (N.land b 0xf) 2))
              && (N.lor (N.shiftl (N.shiftr b 4) 4)
                        (N.shiftr (N.shiftl (N.land b 0xf) 2) 2) =? b))).
  vm_compute; reflexivity.
Qed.

(** One step of the decoder on a character of the alphabet. *)
Lemma a2b_base64_loop_data quad_pos leftchar pads c n rest :
  is_sextet_of n c = true ->
  a2b_base64_loop quad_pos leftchar pads (c :: rest) =
  match quad_pos with
  | 0%nat => a2b_base64_loop 1 n 0 rest
  | 1%nat =>
      out <- a2b_base64_loop 2 (N.land n 0x0f) 0 rest ;;
      Ok (N.lor (N.shiftl leftchar 2) (N.shiftr n 4) :: out)
  | 2%nat =>
      out <- a2b_base64_loop 3 (N.land n 0x03) 0 rest ;;
      Ok (N.lor (N.shiftl leftchar 4) (N.shiftr n 2) :: out)
  | _ =>
      out <- a2b_base64_loop 0 0 0 rest ;;
      Ok (N.lor (N.shiftl leftchar 6) n :: out)
  end.
Proof.
  intros Hc. apply is_sextet_of_spec in Hc. destruct Hc as (Ht & Hp & _).
  cbn [a2b_base64_loop]. rewrite Hp, Ht. reflexivity.
Qed.

Lemma a2b_base64_loop_pads2 leftchar :
  a2b_base64_loop 2 leftchar 0 [BASE64_PAD; BASE64_PAD] = Ok [].
Proof. reflexivity. Qed.

Lemma a2b_base64_loop_pads1 leftchar :
  a2b_base64_loop 3 leftchar 0 [BASE64_PAD] = Ok [].
Proof. reflexivity. Qed.

Lemma list_ind3 {A} (P : list A -> Prop) :
  P [] -> (forall a, P [a]) -> (forall a b, P [a; b]) ->
  (forall a b c rest, P rest -> P (a :: b :: c :: rest)) ->
  forall s, P s.
Proof.
  intros H0 H1 H2 H3 s.
  enough (Hgen : forall n s, (length s < n)%nat -> P s)
    by (apply (Hgen (S (length s))); lia).
  clear s. induction n as [|n IH]; intros s Hlen; [lia|].
  destruct s as [|a [|b [|c rest]]]; auto.
  apply H3, IH. cbn [length] in Hlen. lia.
Qed.

Lemma a2b_base64_b64encode (s : bytes) :
  Forall (fun a => a < 256) s -> a2b_base64 (b64encode s) = Ok s.
Proof.
  unfold a2b_base64.
  induction s as [|a|a b|a b c rest IH] using list_ind3; intros Hs.
  - reflexivity.
  - inversion Hs as [|? ? Ha _]; subst.
    pose proof (sextet1_ok a Ha) as H1.
    pose proof (tail1_ok a Ha) as H2. apply andb_prop in H2. destruct H2 as [H2 H3].
    apply N.eqb_eq in H3.
    cbn [b64encode].
    rewrite (a2b_base64_loop_data _ _ _ _ _ _ H1).
    rewrite (a2b_base64_loop_data _ _ _ _ _ _ H2).
    rewrite a2b_base64_loop_pads2. cbn [bind]. now rewrite H3.
  - inversion Hs as [|? ? Ha Hs']; subst. inversion Hs' as [|? ? Hb _]; subst.
    pose proof (sextet1_ok a Ha) as H1.
    pose proof (sextet2_ok a b Ha Hb) as H2.
    pose proof (byte1_ok a b Ha Hb) as H3. apply andb_prop in H3.
    destruct H3 as [H3 H4]. apply N.eqb_eq in H3, H4.
    pose proof (tail2_ok b Hb) as H5. apply andb_prop in H5. destruct H5 as [H5 H6].
    apply N.eqb_eq in H6.
    cbn [b64encode].
    rewrite (a2b_base64_loop_data _ _ _ _ _ _ H1).
    rewrite (a2b_base64_loop_data _ _ _ _ _ _ H2).
    rewrite (a2b_base64_loop_data _ _ _ _ _ _ H5).
    rewrite a2b_base64_loop_pads1. cbn [bind]. now rewrite H4, H3, H6.
  - inversion Hs as [|? ? Ha Hs']; subst. inversion Hs' as [|? ? Hb Hs'']; subst.
    inversion Hs'' as [|? ? Hc Hrest]; subst.
    pose proof (sextet1_ok a Ha) as H1.
    pose proof (sextet2_ok a b Ha Hb) as H2.
    pose proof (sextet3_ok b c Hb Hc) as H3.
    pose proof (sextet4_ok c Hc) as H4.
    pose proof (byte1_ok a b Ha Hb) as H5. apply andb_prop in H5.
    destruct H5 as [H5 H6]. apply N.eqb_eq in H5, H6.
    pose proof (byte2_ok b c Hb Hc) as H7. apply andb_prop in H7.
    destruct H7 as [H7 H8]. apply N.eqb_eq in H7, H8.
    pose proof (byte3_ok c Hc) as H9. apply N.eqb_eq in H9.
    cbn [b64encode].
    rewrite (a2b_base64_loop_data _ _ _ _ _ _ H1).
    rewrite (a2b_base64_loop_data _ _ _ _ _ _ H2).
    rewrite (a2b_base64_loop_data _ _ _ _ _ _ H3).
    rewrite (a2b_base64_loop_data _ _ _ _ _ _ H4).
    rewrite (IH Hrest). cbn [bind]. now rewrite H6, H8, H5, H7, H9.
Qed.

Lemma b64encode_ascii (s : bytes) :
  Forall (fun a => a < 256) s -> forallb (fun c => c <? 0x80) (b64encode s) = true.
Proof.
  induction s as [|a|a b|a b c rest IH] using list_ind3; intros Hs.
  - reflexivity.
  - inversion Hs as [|? ? Ha _]; subst.
    pose proof (sextet1_ok a Ha) as H1. apply is_sextet_of_spec in H1.
    pose proof (tail1_ok a Ha) as H2. apply andb_prop in H2. destruct H2 as [H2 _].
    apply is_sextet_of_spec in H2.
    cbn [b64encode forallb]. unfold sextet1 in H1.
    destruct H1 as (_ & _ & ->), H2 as (_ & _ & ->). reflexivity.
  - inversion Hs as [|? ? Ha Hs']; subst. inversion Hs' as [|? ? Hb _]; subst.
    pose proof (sextet1_ok a Ha) as H1. apply is_sextet_of_spec in H1.
    pose proof (sextet2_ok a b Ha Hb) as H2. apply is_sextet_of_spec in H2.
    pose proof (tail2_ok b Hb) as H5. apply andb_prop in H5. destruct H5 as [H5 _].
    apply is_sextet_of_spec in H5.
    cbn [b64encode forallb]. unfold sextet1, sextet2 in H1, H2.
    destruct H1 as (_ & _ & ->), H2 as (_ & _ & ->), H5 as (_ & _ & ->). reflexivity.
  - inversion Hs as [|? ? Ha Hs']; subst. inversion Hs' as [|? ? Hb Hs'']; subst.
    inversion Hs'' as [|? ? Hc Hrest]; subst.
    pose proof (sextet1_ok a Ha) as H1. apply is_sextet_of_spec in H1.
    pose proof (sextet2_ok a b Ha Hb) as H2. apply is_sextet_of_spec in H2.
    pose proof (sextet3_ok b c Hb Hc) as H3. apply is_sextet_of_spec in H3.
    pose proof (sextet4_ok c Hc) as H4. apply is_sextet_of_spec in H4.
    cbn [b64encode forallb]. unfold sextet1, sextet2, sextet3, sextet4 in H1, H2, H3, H4.
    destruct H1 as (_ & _ & ->), H2 as (_ & _ & ->), H3 as (_ & _ & ->),
             H4 as (_ & _ & ->).
    now rewrite (IH Hrest).
Qed.

(** Data that stops inside a quad, with no padding, raises. *)
Lemma a2b_base64_loop_incomplete (s : bytes) :
  forall quad_pos leftchar pads,
    (quad_pos < 4)%nat ->
    contains BASE64_PAD s = false ->
    ((quad_pos + data_chars s) mod 4 <> 0)%nat ->
    a2b_base64_loop quad_pos leftchar pads s = Raise BinasciiError.
Proof.
  unfold data_chars.
  induction s as [|c s IH]; intros q l p Hq Hpad Hmod.
  - cbn [filter length] in Hmod. rewrite Nat.add_0_r, Nat.mod_small in Hmod by lia.
    cbn [a2b_base64_loop]. destruct q; [congruence|reflexivity].
  - cbn [contains existsb] in Hpad. apply orb_false_elim in Hpad.
    destruct Hpad as [Hc Hpad]. rewrite N.eqb_sym in Hc.
    cbn [a2b_base64_loop filter] in *. rewrite Hc.
    destruct (table_a2b_base64 c) as [n|].
    + cbn [length] in Hmod.
      destruct q as [|[|[|q]]].
      * apply IH; [lia|assumption|]. now rewrite Nat.add_succ_r in Hmod.
      * rewrite IH; [reflexivity|lia|assumption|].
        now rewrite Nat.add_succ_r in Hmod.
      * rewrite IH; [reflexivity|lia|assumption|].
        now rewrite Nat.add_succ_r in Hmod.
      * assert (q = 0%nat) by lia. subst q.
        rewrite IH; [reflexivity|lia|assumption|].
        replace (3 + S (length (filter _ s)))%nat
          with (length (filter (fun c => match table_a2b_base64 c with
                                         | Some _ => true
                                         | None => false
                                         end) s)
                + 1 * 4)%nat in Hmod by lia.
        now rewrite Nat.Div0.mod_add in Hmod.
    + now apply IH.
Qed.

(** ** The body *)

(** (C9) Without a [body] in the event the body is the empty byte string.
    With [isBase64Encoded] the body is [b64decode] of the payload, which for
    the base64 encoding of any bytes gives these bytes back; [aGVsbG8=]
    decodes to [hello]. *)
Theorem body_base64_decoded (self : AwsAlb.t) :
  let event := AwsAlb.trigger_event self in
  (Event.body event = None -> AwsAlb.body self = Ok [])
  /\ (Event.isBase64Encoded event = true ->
      forall s, Event.body event = Some s -> AwsAlb.body self = b64decode (Str s))
  /\ (Event.isBase64Encoded event = true ->
      forall payload,
        Forall (fun a => a < 256) payload ->
        Event.body event = Some (b64encode payload) ->
        AwsAlb.body self = Ok payload)
  /\ b64decode (Str (lit "aGVsbG8=")) = Ok (lit "hello").
Proof.
  intros event. unfold AwsAlb.body. fold event.
  split; [|split; [|split]].
  - intros ->. now destruct (Event.isBase64Encoded event).
  - intros -> s ->. now destruct s.
  - intros -> payload Hp ->.
    transitivity (b64decode (Str (b64encode payload))).
    { now destruct (b64encode payload). }
    unfold b64decode, bytes_from_decode_data.
    rewrite (b64encode_ascii _ Hp). cbn [bind].
    now apply a2b_base64_b64encode.
  - reflexivity.
Qed.

Lemma body_base64_decoded_witness :
  AwsAlb.body (handler_of (event_with_body (Some (lit "aGVsbG8=")) true))
  = Ok (lit "hello")
  /\ AwsAlb.body (handler_of (event_with_body None true)) = Ok [].
Proof.
  split.
  - destruct (body_base64_decoded
                (handler_of (event_with_body (Some (lit "aGVsbG8=")) true)))
      as (_ & _ & Hrt & _).
    apply (Hrt eq_refl (lit "hello")); [|reflexivity].
    repeat constructor.
  - destruct (body_base64_decoded (handler_of (event_with_body None true)))
      as (Hnone & _).
    apply Hnone. reflexivity.
Defined.

(** ** Errors *)

(** (C5, as stated) A path with a malformed percent escape raises nothing:
    the request is produced, with the escape as it was written. *)
Lemma malformed_percent_encoding_not_raised :
  exists r,
    AwsAlb.request (handler_of (event_with_path (Some (Some (lit "/%zz"))))) = Ok r /\
    Request.path r = lit "/%zz".
Proof. eexists. split; reflexivity. Qed.

(** (C5, amended) An event without [path] or without [httpMethod] makes
    [request] raise [KeyError], and base64 data that stops inside a quad makes
    [body] raise [binascii.Error]; the result is the exception alone.  A
    malformed percent escape raises nothing: the path is decoded where it can
    be and the request is produced. *)
Theorem missing_key_and_base64_errors {B : Builtins} (self : AwsAlb.t) :
  let event := AwsAlb.trigger_event self in
  (Event.path event = None ->
   AwsAlb.request self = Raise (KeyError (lit "path")))
  /\ (Event.path event <> None -> Event.httpMethod event = None ->
      AwsAlb.request self = Raise (KeyError (lit "httpMethod")))
  /\ (forall s,
        Event.isBase64Encoded event = true ->
        Event.body event = Some s ->
        forallb (fun c => c <? 0x80) s = true ->
        contains BASE64_PAD s = false ->
        (data_chars s mod 4 <> 0)%nat ->
        AwsAlb.body self = Raise BinasciiError)
  /\ (forall path context,
        exists r,
          AwsAlb.request {| AwsAlb.trigger_event := event_with_path (Some path);
                            AwsAlb.trigger_context := context |} = Ok r /\
          Request.path r = unquote (path_or_slash path))
  /\ unquote (lit "/%zz") = lit "/%zz".
Proof.
  intros event. split; [apply request_missing_path|].
  split.
  { intros Hp Hm. unfold AwsAlb.request. fold event.
    destruct (Event.path event); [|congruence]. now rewrite Hm. }
  split.
  { intros s Hb Hs Hascii Hpad Hmod. unfold AwsAlb.body. fold event.
    rewrite Hb, Hs.
    assert (Hne : s <> []) by (intros ->; now apply Hmod).
    destruct s as [|c s]; [congruence|].
    unfold b64decode, bytes_from_decode_data. rewrite Hascii. cbn [bind].
    apply a2b_base64_loop_incomplete; [lia|assumption|assumption]. }
  split; [apply request_event_with_path|reflexivity].
Qed.

Lemma missing_key_and_base64_errors_witness :
  AwsAlb.request (handler_of (event_with_path None)) = Raise (KeyError (lit "path"))
  /\ AwsAlb.body (handler_of (event_with_body (Some (lit "aGVsbG8")) true))
     = Raise BinasciiError.
Proof.
  split.
  - destruct (missing_key_and_base64_errors (handler_of (event_with_path None)))
      as (Hpath & _).
    apply Hpath. reflexivity.
  - destruct (missing_key_and_base64_errors
                (handler_of (event_with_body (Some (lit "aGVsbG8")) true)))
      as (_ & _ & Hb64 & _).
    apply (Hb64 (lit "aGVsbG8")); try reflexivity. vm_compute. discriminate.
Defined.

(** ** The query string: which parameters *)

(** (C7) [encode_query_string] encodes [multiValueQueryStringParameters]
    when that is there and not empty, and [queryStringParameters] otherwise;
    with no parameters in the one it reads, and with parameters that give no
    pair, it returns the empty byte string. *)
Theorem encode_query_string_source (self : AwsAlb.t) :
  let event := AwsAlb.trigger_event self in
  let encode params := s <- urlencode (AwsAlb.query_pairs params) ;; utf8_encode s in
  (forall params,
     Event.multiValueQueryStringParameters event = Some params -> params <> [] ->
     AwsAlb.encode_query_string self = encode params)
  /\ (forall params,
        falsy (Event.multiValueQueryStringParameters event) ->
        Event.queryStringParameters event = Some params -> params <> [] ->
        AwsAlb.encode_query_string self = encode params)
  /\ (falsy (Event.multiValueQueryStringParameters event) ->
      falsy (Event.queryStringParameters event) ->
      AwsAlb.encode_query_string self = Ok [])
  /\ (forall params, AwsAlb.query_pairs params = [] -> encode params = Ok []).
Proof.
  intros event encode. unfold AwsAlb.encode_query_string. fold event.
  split; [|split; [|split]].
  - intros params -> Hne. destruct params; [congruence|reflexivity].
  - intros params [-> | ->] -> Hne; (destruct params; [congruence|reflexivity]).
  - intros [-> | ->] [-> | ->]; reflexivity.
  - intros params Hq. unfold encode. rewrite Hq. reflexivity.
Qed.

Lemma encode_query_string_source_witness :
  AwsAlb.encode_query_string
    (handler_of (event_with_query (Some [(lit "a", QStr (lit "1"))])
                                  (Some [(lit "b", QList [lit "2"; lit "3"])])))
  = Ok (lit "b=2&b=3")
  /\ AwsAlb.encode_query_string
       (handler_of (event_with_query (Some [(lit "a", QStr (lit "1"))]) (Some [])))
     = Ok (lit "a=1")
  /\ AwsAlb.encode_query_string (handler_of (event_with_query None (Some []))) = Ok [].
Proof.
  split; [|split].
  - destruct (encode_query_string_source
                (handler_of (event_with_query (Some [(lit "a", QStr (lit "1"))])
                               (Some [(lit "b", QList [lit "2"; lit "3"])]))))
      as (Hmulti & _).
    rewrite (Hmulti [(lit "b", QList [lit "2"; lit "3"])] eq_refl); [reflexivity|].
    discriminate.
  - destruct (encode_query_string_source
                (handler_of (event_with_query (Some [(lit "a", QStr (lit "1"))])
                                              (Some []))))
      as (_ & Hsingle & _).
    rewrite (Hsingle [(lit "a", QStr (lit "1"))]); try reflexivity.
    + now right.
    + discriminate.
  - destruct (encode_query_string_source (handler_of (event_with_query None (Some []))))
      as (_ & _ & Hnone & _).
    apply Hnone; [now right|now left].
Defined.

(** ** The query string: decoding what was encoded *)

Local Opaque N.add N.mul N.div N.modulo N.sub N.ltb N.leb N.eqb.

Lemma utf8_encode_char_scalar c :
  is_scalar c = true ->
  exists bs, utf8_encode_char c = Ok bs /\ Forall (fun b => b < 256) bs.
Proof.
  unfold is_scalar, utf8_encode_char. intros Hc.
  destruct (N.ltb_spec c 0x80); [eexists; split; [reflexivity|repeat constructor; lia]|].
  destruct (N.ltb_spec c 0x800).
  { eexists; split; [reflexivity|]. name_divmod. repeat constructor; lia. }
  destruct (N.ltb_spec c 0x10000).
  { destruct (N.leb_spec 0xD800 c); destruct (N.ltb_spec c 0xE000); cbn [andb].
    - exfalso. revert Hc. btest; cbn; discriminate.
    - eexists; split; [reflexivity|]. name_divmod. repeat constructor; lia.
    - eexists; split; [reflexivity|]. name_divmod. repeat constructor; lia.
    - eexists; split; [reflexivity|]. name_divmod. repeat constructor; lia. }
  destruct (N.ltb_spec c 0x110000).
  { eexists; split; [reflexivity|]. name_divmod. repeat constructor; lia. }
  exfalso. revert Hc. btest; cbn; discriminate.
Qed.

Lemma utf8_encode_well_formed (s : str) :
  well_formed s -> exists bs, utf8_encode s = Ok bs /\ Forall (fun b => b < 256) bs.
Proof.
  unfold utf8_encode. induction 1 as [|c s Hc Hs IH]; cbn [mapM].
  - exists []. split; [reflexivity|constructor].
  - destruct (utf8_encode_char_scalar c Hc) as [b [-> Hb]]. cbn [bind].
    destruct IH as [bs [IH Hbs]].
    destruct (mapM utf8_encode_char s) as [chunks|e]; [|discriminate].
    cbn [bind] in *. injection IH as <-. eexists. split; [reflexivity|].
    cbn [concat]. apply Forall_app. split; assumption.
Qed.

Lemma utf8_encode_ascii (s : str) : is_ascii s -> utf8_encode s = Ok s.
Proof.
  unfold utf8_encode. induction 1 as [|c s Hc Hs IH]; cbn [mapM]; [reflexivity|].
  unfold utf8_encode_char at 1. apply N.ltb_lt in Hc. rewrite Hc. cbn [bind].
  destruct (mapM utf8_encode_char s) as [chunks|e]; [|discriminate].
  cbn [bind] in *. injection IH as IH. cbn [concat app]. now rewrite IH.
Qed.

Lemma utf8_decode_replace_ascii (bs : bytes) :
  is_ascii bs -> utf8_decode_replace bs = bs.
Proof.
  intros Hbs. apply utf8_decode_replace_encode. now apply utf8_encode_ascii.
Qed.



Local Transparent N.add N.mul N.div N.modulo N.sub N.ltb N.leb N.eqb.


(** *** [split] and [join] *)

Lemma split_cons_sep sep s : split sep (sep :: s) = [] :: split sep s.
Proof. cbn [split]. now rewrite N.eqb_refl. Qed.

Lemma split_not_nil sep s : split sep s <> [].
Proof.
  destruct s as [|c s]; cbn [split]; [discriminate|].
  destruct (c =? sep); [discriminate|].
  destruct (split sep s); discriminate.
Qed.

Lemma split_cons_other sep c s :
  c <> sep ->
  split sep (c :: s) =
  match split sep s with
  | piece :: pieces => (c :: piece) :: pieces
  | [] => [[c]]
  end.
Proof. intros Hc. cbn [split]. apply N.eqb_neq in Hc. now rewrite Hc. Qed.

Lemma split_no_sep sep s : contains sep s = false -> split sep s = [s].
Proof.
  unfold contains. induction s as [|c s IH]; cbn [existsb]; [reflexivity|].
  intros Hc. apply orb_false_elim in Hc. destruct Hc as [Hc Hs].
  rewrite N.eqb_sym in Hc. cbn [split]. rewrite Hc, (IH Hs). reflexivity.
Qed.

Lemma split_app_sep sep piece rest :
  contains sep piece = false ->
  split sep (piece ++ sep :: rest) = piece :: split sep rest.
Proof.
  unfold contains. induction piece as [|c piece IH]; cbn [existsb app].
  - intros _. apply split_cons_sep.
  - intros Hc. apply orb_false_elim in Hc. destruct Hc as [Hc Hs].
    rewrite N.eqb_sym in Hc. cbn [split]. rewrite Hc, (IH Hs). reflexivity.
Qed.


Lemma join_split sep s : join [sep] (split sep s) = s.
Proof.
  induction s as [|c s IH]; [reflexivity|].
  cbn [split]. pose proof (split_not_nil sep s) as Hne.
  destruct (N.eqb_spec c sep) as [->|Hc].
  - destruct (split sep s) as [|p ps]; [congruence|].
    change (join [sep] ([] :: p :: ps)) with (sep :: join [sep] (p :: ps)).
    now rewrite IH.
  - destruct (split sep s) as [|p ps]; [congruence|].
    rewrite <- IH. now destruct ps.
Qed.

Lemma contains_app c a b : contains c (a ++ b) = contains c a || contains c b.
Proof. unfold contains. apply existsb_app. Qed.

Lemma replace_app a b s t : replace a b (s ++ t) = replace a b s ++ replace a b t.
Proof. unfold replace. apply map_app. Qed.

Lemma replace_flat_map {A} a b (f : A -> list N) l :
  replace a b (flat_map f l) = flat_map (fun x => replace a b (f x)) l.
Proof.
  induction l as [|x l IH]; cbn [flat_map]; [reflexivity|].
  now rewrite replace_app, IH.
Qed.

(** *** [unquote_to_bytes] *)

Lemma unquote_to_bytes_split string :
  unquote_to_bytes string =
  match split Chr.percent string with
  | first :: items => first ++ flat_map unquote_item items
  | [] => string
  end.
Proof.
  unfold unquote_to_bytes.
  pose proof (join_split Chr.percent string) as Hj.
  destruct (split Chr.percent string) as [|first [|item items]]; try reflexivity.
  cbn [flat_map join] in *. now rewrite app_nil_r.
Qed.

Lemma unquote_to_bytes_literal c s :
  c <> Chr.percent -> unquote_to_bytes (c :: s) = c :: unquote_to_bytes s.
Proof.
  intros Hc. rewrite !unquote_to_bytes_split, (split_cons_other _ _ _ Hc).
  pose proof (split_not_nil Chr.percent s).
  destruct (split Chr.percent s); [congruence|reflexivity].
Qed.

Lemma unquote_to_bytes_escape h1 h2 b s :
  hextobyte [h1; h2] = Some b ->
  unquote_to_bytes (Chr.percent :: h1 :: h2 :: s) = b :: unquote_to_bytes s.
Proof.
  intros Hb.
  assert (Hh : forall h v, hexdigit_value h = Some v -> h <> Chr.percent).
  { intros h v Hv ->. vm_compute in Hv. discriminate. }
  cbn [hextobyte] in Hb.
  destruct (hexdigit_value h1) as [x|] eqn:E1; [|discriminate].
  destruct (hexdigit_value h2) as [y|] eqn:E2; [|discriminate].
  injection Hb as <-.
  rewrite !unquote_to_bytes_split, split_cons_sep.
  rewrite (split_cons_other _ _ _ (Hh _ _ E1)), (split_cons_other _ _ _ (Hh _ _ E2)).
  pose proof (split_not_nil Chr.percent s).
  destruct (split Chr.percent s) as [|piece pieces]; [congruence|].
  cbn [app flat_map]. unfold unquote_item at 1. cbn [hextobyte].
  rewrite E1, E2. reflexivity.
Qed.

Lemma unquote_to_bytes_no_percent s :
  contains Chr.percent s = false -> unquote_to_bytes s = s.
Proof.
  intros Hc. unfold unquote_to_bytes. now rewrite (split_no_sep _ _ Hc).
Qed.

(** *** [unquote] on ASCII text *)

Lemma unquote_parts_ascii (string : str) :
  is_ascii string ->
  forall run, unquote_parts run string = unquote_run (rev string ++ run).
Proof.
  induction 1 as [|c s Hc Hs IH]; intros run; [reflexivity|].
  cbn [unquote_parts rev]. apply N.ltb_lt in Hc. rewrite Hc, IH.
  now rewrite <- app_assoc.
Qed.

Lemma unquote_ascii (string : str) :
  is_ascii string ->
  unquote string = utf8_decode_replace (unquote_to_bytes string).
Proof.
  intros Ha. unfold unquote.
  destruct (contains Chr.percent string) eqn:Ec; cbn [negb].
  - rewrite (unquote_parts_ascii _ Ha). unfold unquote_run.
    now rewrite app_nil_r, rev_involutive.
  - rewrite (unquote_to_bytes_no_percent _ Ec).
    symmetry. now apply utf8_decode_replace_ascii.
Qed.

(** *** [quote_plus], byte by byte *)

Lemma quote_plus_tokens (s : str) (bs : bytes) :
  utf8_encode s = Ok bs ->
  quote_plus s = Ok (flat_map (plus_token (contains Chr.space s)) bs).
Proof.
  intros He. unfold quote_plus, quote, plus_token. rewrite He.
  destruct (contains Chr.space s); cbn [negb bind]; [|reflexivity].
  unfold quote_from_bytes. now rewrite replace_flat_map.
Qed.

Lemma plus_token_ok has_space b :
  b < 256 -> token_ok b (plus_token has_space b) = true.
Proof.
  destruct has_space.
  - apply (forall_octets (fun b => token_ok b (plus_token true b))).
    vm_compute; reflexivity.
  - apply (forall_octets (fun b => token_ok b (plus_token false b))).
    vm_compute; reflexivity.
Qed.

Lemma token_ok_chars b token :
  token_ok b token = true ->
  is_ascii token /\ contains Chr.amp token = false /\ contains Chr.equals token = false
  /\ is_ascii (replace Chr.plus Chr.space token).
Proof.
  unfold token_ok. intros Hok. apply andb_prop in Hok. destruct Hok as [Hall _].
  rewrite forallb_forall in Hall.
  assert (Hc : forall c, In c token ->
                         c < 0x80 /\ c <> Chr.amp /\ c <> Chr.equals).
  { intros c Hin. specialize (Hall c Hin).
    apply andb_prop in Hall. destruct Hall as [Hall H3].
    apply andb_prop in Hall. destruct Hall as [H1 H2].
    apply N.ltb_lt in H1. apply negb_true_iff, N.eqb_neq in H2, H3. auto. }
  clear Hall. repeat split.
  - apply Forall_forall. intros c Hin. now apply Hc.
  - unfold contains. apply not_true_is_false. intros Hex.
    apply existsb_exists in Hex. destruct Hex as [c [Hin Heq]].
    apply N.eqb_eq in Heq. subst c. destruct (Hc _ Hin) as (_ & H2 & H3). congruence.
  - unfold contains. apply not_true_is_false. intros Hex.
    apply existsb_exists in Hex. destruct Hex as [c [Hin Heq]].
    apply N.eqb_eq in Heq. subst c. destruct (Hc _ Hin) as (_ & H2 & H3). congruence.
  - unfold replace. apply Forall_forall. intros c Hin.
    apply in_map_iff in Hin. destruct Hin as [c' [<- Hin]].
    destruct (c' =? Chr.plus); [vm_compute; reflexivity|now apply Hc].
Qed.

Lemma token_ok_unquote b token rest :
  token_ok b token = true ->
  unquote_to_bytes (replace Chr.plus Chr.space token ++ rest) = b :: unquote_to_bytes rest.
Proof.
  unfold token_ok. intros Hok. apply andb_prop in Hok. destruct Hok as [_ Hok].
  destruct (replace Chr.plus Chr.space token) as [|c [|h1 [|h2 [|x t]]]];
    try discriminate.
  - apply andb_prop in Hok. destruct Hok as [H1 H2].
    apply N.eqb_eq in H1. subst c. apply negb_true_iff, N.eqb_neq in H2.
    now apply unquote_to_bytes_literal.
  - apply andb_prop in Hok. destruct Hok as [H1 H2].
    apply N.eqb_eq in H1. subst c.
    destruct (hextobyte [h1; h2]) as [b'|] eqn:Eh; [|discriminate].
    apply N.eqb_eq in H2. subst b'.
    now apply unquote_to_bytes_escape.
Qed.

Section Tokens.
Variable has_space : bool.

Lemma unquote_to_bytes_tokens (bs : bytes) :
  Forall (fun b => b < 256) bs ->
  unquote_to_bytes (replace Chr.plus Chr.space (flat_map (plus_token has_space) bs)) = bs.
Proof.
  induction 1 as [|b bs Hb Hbs IH]; [reflexivity|].
  cbn [flat_map]. rewrite replace_app.
  rewrite (token_ok_unquote b _ _ (plus_token_ok has_space b Hb)).
  now rewrite IH.
Qed.

Lemma tokens_chars (bs : bytes) :
  Forall (fun b => b < 256) bs ->
  let q := flat_map (plus_token has_space) bs in
  is_ascii q /\ contains Chr.amp q = false /\ contains Chr.equals q = false
  /\ is_ascii (replace Chr.plus Chr.space q).
Proof.
  induction 1 as [|b bs Hb Hbs IH]; cbn zeta.
  - repeat split; constructor.
  - cbn [flat_map]. rewrite replace_app, !contains_app.
    destruct (token_ok_chars _ _ (plus_token_ok has_space b Hb)) as (T1 & T2 & T3 & T4).
    destruct IH as (I1 & I2 & I3 & I4).
    rewrite T2, T3, I2, I3. unfold is_ascii in *.
    repeat split; try reflexivity; apply Forall_app; split; assumption.
Qed.
End Tokens.

(** [unquote_plus] undoes [quote_plus]. *)
Lemma unquote_plus_quote_plus (s : str) :
  well_formed s ->
  exists q,
    quote_plus s = Ok q /\ unquote_plus q = s /\ is_ascii q
    /\ contains Chr.amp q = false /\ contains Chr.equals q = false.
Proof.
  intros Hs.
  destruct (utf8_encode_well_formed s Hs) as [bs [He Hbs]].
  exists (flat_map (plus_token (contains Chr.space s)) bs).
  destruct (tokens_chars (contains Chr.space s) bs Hbs) as (T1 & T2 & T3 & T4).
  split; [now apply quote_plus_tokens|].
  split; [|auto].
  unfold unquote_plus. rewrite (unquote_ascii _ T4).
  rewrite (unquote_to_bytes_tokens _ _ Hbs).
  now apply utf8_decode_replace_encode.
Qed.



(** *** Form decoding *)

Lemma split_first_app sep a b :
  contains sep a = false -> split_first sep (a ++ sep :: b) = (a, b).
Proof.
  unfold contains. induction a as [|c a IH]; cbn [existsb app split_first].
  - intros _. now rewrite N.eqb_refl.
  - intros Hc. apply orb_false_elim in Hc. destruct Hc as [Hc Ha].
    rewrite N.eqb_sym in Hc. now rewrite Hc, (IH Ha).
Qed.

Lemma quote_pair (k v : str) :
  well_formed k -> well_formed v ->
  exists piece,
    (k' <- quote_plus k ;; v' <- quote_plus v ;; Ok (k' ++ [Chr.equals] ++ v'))
    = Ok piece /\ encodes_pair (k, v) piece.
Proof.
  intros Hk Hv.
  destruct (unquote_plus_quote_plus k Hk) as (qk & -> & Uk & Ak & Ck & Ek).
  destruct (unquote_plus_quote_plus v Hv) as (qv & -> & Uv & Av & Cv & Ev).
  cbn [bind]. eexists. split; [reflexivity|].
  unfold encodes_pair. split; [|split].
  - apply Forall_app. split; [assumption|].
    constructor; [vm_compute; reflexivity|assumption].
  - rewrite !contains_app, Ck, Cv. reflexivity.
  - unfold form_piece. cbn [app]. rewrite (split_first_app _ _ _ Ek), Uk, Uv.
    now destruct qk.
Qed.

Lemma urlencode_pieces (query : list (str * str)) :
  Forall (fun '(k, v) => well_formed k /\ well_formed v) query ->
  exists pieces,
    urlencode query = Ok (join [Chr.amp] pieces) /\ Forall2 encodes_pair query pieces.
Proof.
  unfold urlencode. intros Hq.
  enough (Hm : exists pieces,
             mapM (fun '(k, v) =>
                     k' <- quote_plus k ;;
                     v' <- quote_plus v ;;
                     Ok (k' ++ [Chr.equals] ++ v')) query = Ok pieces
             /\ Forall2 encodes_pair query pieces).
  { destruct Hm as [pieces [-> Hps]]. exists pieces. split; [reflexivity|assumption]. }
  induction Hq as [|[k v] query [Hk Hv] Hq IH]; cbn [mapM].
  - exists []. split; [reflexivity|constructor].
  - destruct (quote_pair k v Hk Hv) as [piece [-> Hp]]. cbn [bind].
    destruct IH as [pieces [-> Hps]]. cbn [bind].
    exists (piece :: pieces). split; [reflexivity|now constructor].
Qed.

Lemma is_ascii_join (pieces : list (list N)) :
  Forall is_ascii pieces -> is_ascii (join [Chr.amp] pieces).
Proof.
  induction 1 as [|piece pieces Hp Hps IH]; [constructor|].
  destruct pieces as [|piece' pieces]; [assumption|].
  change (join [Chr.amp] (piece :: piece' :: pieces))
    with (piece ++ Chr.amp :: join [Chr.amp] (piece' :: pieces)).
  apply Forall_app. split; [assumption|].
  constructor; [vm_compute; reflexivity|assumption].
Qed.

Lemma encodes_pair_ascii (query : list (str * str)) (pieces : list (list N)) :
  Forall2 encodes_pair query pieces -> Forall is_ascii pieces.
Proof. induction 1 as [|kv piece q ps (Ha & _ & _) _ IH]; constructor; assumption. Qed.






Example encode_query_string_ex1 :
  AwsAlb.encode_query_string (handler_of encoded_query_event)
  = Ok (lit "q=a+b+c&x+y=1%262%3D3&k=%E2%82%AC%EF%BF%BD").
Proof. reflexivity. Qed.


(** ** Values past the casings *)

Lemma combine_app_excess {A X} (values extra : list A) (casings : list X) :
  (length casings <= length values)%nat ->
  combine (values ++ extra) casings = combine values casings.
Proof.
  revert casings. induction values as [|v values IH]; intros [|c casings] Hlen;
    cbn [length app combine] in *; try reflexivity; try lia.
  - now destruct extra.
  - f_equal. apply IH. lia.
Qed.

Lemma handle_headers_write_casings {B : Builtins} {H : AbstractHandler}
    (self : AwsAlb.t) (response_headers : list (bytes * bytes)) :
  Event.multiValueHeaders (AwsAlb.trigger_event self) = None ->
  AwsAlb.handle_headers self response_headers =
  ('(headers, multi_value_headers) <- _handle_multi_value_headers response_headers ;;
   Ok (fold_left write_casings multi_value_headers headers, [])).
Proof.
  intros Hmv. unfold AwsAlb.handle_headers. rewrite Hmv.
  destruct (_handle_multi_value_headers response_headers) as [[h m]|e]; reflexivity.
Qed.

Lemma write_casings_excess {B : Builtins}
    (multi_value_headers : dict (list str)) (key : str) (values : list str) (value : str) :
  dict_get multi_value_headers key = Some values ->
  (length (all_casings key) <= length values)%nat ->
  (1 < length values)%nat ->
  forall headers,
    fold_left write_casings (dict_set multi_value_headers key (values ++ [value])) headers
    = fold_left write_casings multi_value_headers headers.
Proof.
  intros Hget Hlen Htwo.
  induction multi_value_headers as [|[k vs] m IH]; intros headers; [discriminate|].
  cbn [dict_get dict_set] in *.
  destruct (str_eqb k key) eqn:E.
  - injection Hget as ->. apply str_eqb_eq in E. subst k.
    cbn [fold_left]. f_equal. unfold write_casings.
    rewrite length_app. cbn [length].
    replace (1 <? length values + 1)%nat with true by (symmetry; apply Nat.ltb_lt; lia).
    replace (1 <? length values)%nat with true by (symmetry; apply Nat.ltb_lt; lia).
    now rewrite combine_app_excess.
  - cbn [fold_left]. now apply IH.
Qed.

Lemma spec_handle_multi_value_headers_app {B : Builtins}
    (response_headers : list (bytes * bytes)) (k v : bytes)
    (key value : str) (headers : dict str) (multi_value_headers : dict (list str))
    (values : list str) :
  spec_handle_multi_value_headers response_headers = Ok (headers, multi_value_headers) ->
  utf8_decode k = Ok key -> utf8_decode v = Ok value ->
  dict_get multi_value_headers (str_lower key) = Some values ->
  spec_handle_multi_value_headers (response_headers ++ [(k, v)]) =
  Ok (headers, dict_set multi_value_headers (str_lower key) (values ++ [value])).
Proof.
  unfold spec_handle_multi_value_headers. intros Hs Hk Hv Hget.
  rewrite fold_left_app, Hs. cbn [fold_left bind]. rewrite Hk. cbn [bind].
  rewrite Hv. cbn [bind]. now rewrite Hget.
Qed.

(** (C6) The enumeration of the casings of a name is a finite list, a
    function of the name, with [2 ^ n] entries for a name with [n] cased
    characters.  At a cased character the casings come in pairs, the
    lower-case variant before the upper-case one over the same casing of the
    rest; any other character stays as it is.  Without [multiValueHeaders] in
    the event, [handle_headers] does not raise on its own and writes, for a
    repeated header, only as many values as its name has casings: when the
    partition of a response has one more value of a header that has a value
    for each casing already, the reply is the same. *)
Theorem all_casings_enumeration {B : Builtins} (name : str) :
  length (all_casings name) = (2 ^ count_cased name)%nat
  /\ (forall c rest i,
        cased c = true -> (i < length (all_casings rest))%nat ->
        nth (2 * i) (all_casings (c :: rest)) [] =
          str_lower [c] ++ nth i (all_casings rest) [] /\
        nth (2 * i + 1) (all_casings (c :: rest)) [] =
          str_upper [c] ++ nth i (all_casings rest) [])
  /\ (forall c rest,
        cased c = false ->
        all_casings (c :: rest) = map (cons c) (all_casings rest))
  /\ (forall (H : AbstractHandler) self response_headers headers multi_value_headers,
        Event.multiValueHeaders (AwsAlb.trigger_event self) = None ->
        _handle_multi_value_headers response_headers =
          Ok (headers, multi_value_headers) ->
        AwsAlb.handle_headers self response_headers =
          Ok (fold_left
                (fun headers '(key, values) =>
                   if (1 <? length values)%nat then
                     fold_left (fun headers '(value, cased_key) =>
                                  dict_set headers cased_key value)
                               (combine (firstn (length (all_casings key)) values)
                                        (all_casings key))
                               headers
                   else headers)
                multi_value_headers headers, []))
  /\ (forall (H : AbstractHandler) self response_headers response_headers'
             headers multi_value_headers key values value,
        Event.multiValueHeaders (AwsAlb.trigger_event self) = None ->
        _handle_multi_value_headers response_headers =
          Ok (headers, multi_value_headers) ->
        dict_get multi_value_headers key = Some values ->
        _handle_multi_value_headers response_headers' =
          Ok (headers, dict_set multi_value_headers key (values ++ [value])) ->
        (1 < length values)%nat ->
        (length (all_casings key) <= length values)%nat ->
        AwsAlb.handle_headers self response_headers'
        = AwsAlb.handle_headers self response_headers).
Proof.
  split; [apply length_all_casings|].
  split.
  { intros c rest i Hc Hi. rewrite all_casings_cased by assumption.
    apply (nth_flat_map_pair (fun sub => str_lower [c] ++ sub)
                             (fun sub => str_upper [c] ++ sub)); assumption. }
  split; [intros c rest Hc; now apply all_casings_uncased|].
  split.
  { intros H self rh headers mvh Hmv Hp.
    rewrite (handle_headers_write_casings _ _ Hmv), Hp. cbn [bind].
    do 2 f_equal. clear Hp. revert headers.
    induction mvh as [|[key values] mvh IH]; intros headers; [reflexivity|].
    cbn [fold_left]. rewrite <- IH. f_equal.
    unfold write_casings. now rewrite <- combine_values_casings. }
  intros H self rh rh' headers mvh key values value Hmv Hp Hget Hp' Htwo Hlen.
  rewrite !(handle_headers_write_casings _ _ Hmv), Hp, Hp'.
  cbn [bind]. now rewrite write_casings_excess.
Qed.

Lemma all_casings_enumeration_witness :
  AwsAlb.handle_headers (H := spec_handler (fun _ _ => Ok ([], false)))
    (handler_of minimal_event) three_values
  = Ok ([(lit "x", lit "a"); (lit "X", lit "b")], [])
  /\ AwsAlb.handle_headers (H := spec_handler (fun _ _ => Ok ([], false)))
       (handler_of minimal_event) (three_values ++ [(lit "x", lit "d")])
     = AwsAlb.handle_headers (H := spec_handler (fun _ _ => Ok ([], false)))
         (handler_of minimal_event) three_values.
Proof.
  destruct (all_casings_enumeration (B := ascii_builtins) (lit "x"))
    as (_ & _ & _ & Hdrop & Hmore).
  split.
  - rewrite (Hdrop (spec_handler (fun _ _ => Ok ([], false)))
                   (handler_of minimal_event) three_values
                   [] [(lit "x", [lit "a"; lit "b"; lit "c"])]);
      reflexivity.
  - apply (Hmore (spec_handler (fun _ _ => Ok ([], false)))
                 (handler_of minimal_event) three_values
                 (three_values ++ [(lit "x", lit "d")])
                 [] [(lit "x", [lit "a"; lit "b"; lit "c"])]
                 (lit "x") [lit "a"; lit "b"; lit "c"] (lit "d"));
      try reflexivity; cbn; lia.
Defined.

(** * Further properties *)

(** ** The casings of an ASCII name *)

Lemma between_spec lo hi c :
  BoolSpec (lo <= c <= hi) (~ lo <= c <= hi) (between lo hi c).
Proof.
  unfold between.
  destruct (N.leb_spec lo c); destruct (N.leb_spec c hi); constructor; lia.
Qed.

Ltac case_between :=
  repeat match goal with
  | |- context [between ?lo ?hi ?c] => destruct (between_spec lo hi c)
  | H : context [between ?lo ?hi ?c] |- _ => destruct (between_spec lo hi c)
  end.

Lemma ascii_lower_lower c : ascii_lower (ascii_lower c) = ascii_lower c.
Proof. unfold ascii_lower. case_between; lia. Qed.

Lemma ascii_lower_upper c : ascii_lower (ascii_upper c) = ascii_lower c.
Proof. unfold ascii_lower, ascii_upper. case_between; lia. Qed.

Lemma cased_is_letter c : cased (B := ascii_builtins) c = is_letter c.
Proof.
  unfold cased, is_letter. cbn [str_lower str_upper ascii_builtins map].
  destruct (str_eqb [ascii_lower c] [ascii_upper c]) eqn:E.
  - apply str_eqb_eq in E. injection E as E. revert E.
    unfold ascii_lower, ascii_upper. case_between; cbn; intros; reflexivity || lia.
  - apply str_eqb_neq in E.
    assert (E' : ascii_lower c <> ascii_upper c) by congruence. clear E. revert E'.
    unfold ascii_lower, ascii_upper. case_between; cbn; intros;
      reflexivity || congruence || lia.
Qed.

Lemma uncased_lower c :
  cased (B := ascii_builtins) c = false -> ascii_lower c = c.
Proof.
  rewrite cased_is_letter. unfold is_letter, ascii_lower.
  case_between; cbn; intros; congruence || lia.
Qed.

Lemma lower_neq_upper c :
  cased (B := ascii_builtins) c = true -> ascii_lower c <> ascii_upper c.
Proof.
  unfold cased. cbn [str_lower str_upper ascii_builtins map].
  intros Hc Heq. rewrite Heq, str_eqb_refl in Hc. discriminate.
Qed.

Lemma NoDup_flat_map_pair (a b : N) (l : list (list N)) :
  a <> b -> NoDup l -> NoDup (flat_map (fun s => [[a] ++ s; [b] ++ s]) l).
Proof.
  intros Hab. induction 1 as [|x l Hx Hl IH]; cbn [flat_map app]; [constructor|].
  assert (Hin : forall c, ~ In (c :: x) (flat_map (fun s => [[a] ++ s; [b] ++ s]) l)).
  { intros c Hc. apply in_flat_map in Hc. destruct Hc as [s [Hs [Hc|[Hc|[]]]]];
      cbn in Hc; injection Hc as _ ->; contradiction. }
  constructor.
  - intros [Heq|Hc]; [congruence|now apply (Hin a)].
  - constructor; [apply Hin|assumption].
Qed.

(** Every casing of a name is the name, up to case, and the first is the
    lower-case name. *)
Lemma all_casings_lower (name : str) :
  Forall (fun casing => str_lower (Builtins := ascii_builtins) casing = str_lower name)
         (all_casings (H := ascii_builtins) name)
  /\ hd [] (all_casings (H := ascii_builtins) name) = str_lower name.
Proof.
  cbn [str_lower ascii_builtins].
  induction name as [|c rest [IH IHhd]]; [split; [repeat constructor|reflexivity]|].
  destruct (cased (B := ascii_builtins) c) eqn:Hc.
  - rewrite (all_casings_cased _ _ Hc). cbn [str_lower str_upper ascii_builtins map app].
    split.
    + apply Forall_forall. intros casing Hin. apply in_flat_map in Hin.
      destruct Hin as [sub [Hsub [<-|[<-|[]]]]]; cbn [map];
        rewrite (proj1 (Forall_forall _ _) IH sub Hsub);
        now rewrite ?ascii_lower_lower, ?ascii_lower_upper.
    + pose proof (all_casings_nonempty (B := ascii_builtins) rest) as Hne.
      destruct (all_casings rest) as [|sub subs]; [cbn in Hne; lia|].
      cbn [flat_map app hd] in *. now rewrite IHhd.
  - rewrite (all_casings_uncased _ _ Hc). split.
    + apply Forall_forall. intros casing Hin. apply in_map_iff in Hin.
      destruct Hin as [sub [<- Hsub]]. cbn [map].
      now rewrite (proj1 (Forall_forall _ _) IH sub Hsub).
    + pose proof (all_casings_nonempty (B := ascii_builtins) rest) as Hne.
      destruct (all_casings rest) as [|sub subs]; [cbn in Hne; lia|].
      cbn [map hd] in *. now rewrite IHhd, (uncased_lower _ Hc).
Qed.

Lemma NoDup_all_casings (name : str) : NoDup (all_casings (H := ascii_builtins) name).
Proof.
  induction name as [|c rest IH]; [repeat constructor; cbn; tauto|].
  destruct (cased (B := ascii_builtins) c) eqn:Hc.
  - rewrite (all_casings_cased _ _ Hc). cbn [str_lower str_upper ascii_builtins map].
    apply NoDup_flat_map_pair; [now apply lower_neq_upper|assumption].
  - rewrite (all_casings_uncased _ _ Hc).
    clear Hc. induction IH as [|x l Hx Hl IHl]; cbn [map]; constructor; [|assumption].
    intros Hin. apply in_map_iff in Hin. destruct Hin as [y [Hy Hin]].
    injection Hy as ->. contradiction.
Qed.

Lemma lower_eq_cases x c :
  ascii_lower x = ascii_lower c -> x = ascii_lower c \/ x = ascii_upper c.
Proof. unfold ascii_lower, ascii_upper. case_between; lia. Qed.

Lemma lower_eq_uncased x c :
  cased (B := ascii_builtins) c = false -> ascii_lower x = ascii_lower c -> x = c.
Proof.
  rewrite cased_is_letter. unfold is_letter, ascii_lower.
  case_between; cbn; intros; congruence || lia.
Qed.

(** (X1) The casings of an ASCII name are the strings that are the name up
    to the case of its letters, each once, and the first of them is the
    lower-case name. *)
Theorem all_casings_up_to_case (name : str) :
  (forall casing,
     In casing (all_casings (H := ascii_builtins) name) <->
     str_lower (Builtins := ascii_builtins) casing = str_lower name)
  /\ NoDup (all_casings (H := ascii_builtins) name)
  /\ hd [] (all_casings (H := ascii_builtins) name) = str_lower name.
Proof.
  destruct (all_casings_lower name) as [Hall Hhd].
  split; [|split; [apply NoDup_all_casings|exact Hhd]].
  intros casing. split; [apply (proj1 (Forall_forall _ _) Hall)|].
  clear Hall Hhd. cbn [str_lower ascii_builtins]. revert casing.
  induction name as [|c rest IH]; intros [|x s] Heq; cbn [map] in Heq;
    try discriminate; [now left|].
  injection Heq as Hx Hs. specialize (IH s Hs).
  destruct (cased (B := ascii_builtins) c) eqn:Hc.
  - rewrite (all_casings_cased _ _ Hc). cbn [str_lower str_upper ascii_builtins map app].
    apply in_flat_map. exists s. split; [assumption|].
    destruct (lower_eq_cases _ _ Hx) as [-> | ->]; cbn; auto.
  - rewrite (all_casings_uncased _ _ Hc).
    rewrite (lower_eq_uncased _ _ Hc Hx). now apply in_map.
Qed.

(** ** What [handle_headers] writes *)

Section Writes.
Context {B : Builtins}.

Lemma In_dict_keys_set {V} (d : dict V) k k' (v : V) :
  In k (dict_keys d) -> In k (dict_keys (dict_set d k' v)).
Proof.
  intros Hin. rewrite dict_keys_set. destruct (dict_get d k'); [assumption|].
  apply in_or_app. now left.
Qed.

Lemma In_dict_keys_set_inv {V} (d : dict V) k k' (v : V) :
  In k (dict_keys (dict_set d k' v)) -> In k (dict_keys d) \/ k = k'.
Proof.
  rewrite dict_keys_set. destruct (dict_get d k'); [now left|].
  intros Hin. apply in_app_or in Hin. destruct Hin as [Hin|[<-|[]]]; auto.
Qed.

Lemma write_pairs_frame pairs headers k :
  ~ In k (map snd pairs) -> dict_get (write_pairs pairs headers) k = dict_get headers k.
Proof.
  unfold write_pairs. revert headers.
  induction pairs as [|[value cased_key] pairs IH]; intros headers Hk; [reflexivity|].
  cbn [fold_left map snd In] in *. rewrite IH by tauto.
  apply dict_get_set_neq. intros ->. tauto.
Qed.

Lemma write_pairs_keys pairs headers k :
  In k (dict_keys (write_pairs pairs headers)) <->
  In k (dict_keys headers) \/ In k (map snd pairs).
Proof.
  unfold write_pairs. revert headers.
  induction pairs as [|[value cased_key] pairs IH]; intros headers.
  - cbn. tauto.
  - cbn [fold_left map snd In]. rewrite IH. split.
    + intros [Hin|Hin]; [|tauto].
      apply In_dict_keys_set_inv in Hin. destruct Hin as [Hin| ->]; auto.
    + intros [Hin|[<-|Hin]]; [left; now apply In_dict_keys_set| |tauto].
      left. rewrite dict_keys_set.
      destruct (dict_get headers cased_key) as [old|] eqn:E.
      * destruct (in_dec (list_eq_dec N.eq_dec) cased_key (dict_keys headers))
          as [Hi|Hn]; [assumption|].
        exfalso. apply dict_get_In in E. apply Hn.
        change cased_key with (fst (cased_key, old)). now apply in_map.
      * apply in_or_app. right. now left.
Qed.


Lemma combine_snd_In {A X} (values : list A) (casings : list X) x :
  In x (map snd (combine values casings)) -> In x casings.
Proof.
  revert casings. induction values as [|v values IH]; intros [|c casings] Hin;
    cbn in *; try tauto.
  destruct Hin as [->|Hin]; auto.
Qed.

Lemma write_casings_pairs headers key values :
  write_casings headers (key, values) =
  if (1 <? length values)%nat
  then write_pairs (combine values (all_casings key)) headers
  else headers.
Proof. reflexivity. Qed.

(** A key that is no casing of a repeated header keeps its value. *)
Lemma write_casings_frame multi_value_headers headers k :
  (forall key values, In (key, values) multi_value_headers ->
                      (1 < length values)%nat -> ~ In k (all_casings key)) ->
  dict_get (fold_left write_casings multi_value_headers headers) k = dict_get headers k.
Proof.
  revert headers.
  induction multi_value_headers as [|[key values] m IH]; intros headers Hk;
    [reflexivity|].
  cbn [fold_left]. rewrite IH by (intros key' values' Hin; apply Hk; now right).
  rewrite write_casings_pairs.
  destruct (1 <? length values)%nat eqn:E; [|reflexivity].
  apply write_pairs_frame. intros Hin. apply combine_snd_In in Hin.
  apply (Hk key values); [now left|now apply Nat.ltb_lt|assumption].
Qed.

Lemma write_casings_keys multi_value_headers headers k :
  In k (dict_keys (fold_left write_casings multi_value_headers headers)) ->
  In k (dict_keys headers) \/
  exists key values, In (key, values) multi_value_headers /\
                     (1 < length values)%nat /\ In k (all_casings key).
Proof.
  revert headers.
  induction multi_value_headers as [|[key values] m IH]; intros headers;
    [now left|].
  cbn [fold_left]. intros Hin. apply IH in Hin.
  destruct Hin as [Hin|(key' & values' & Hin & Hlen & Hk)].
  - rewrite write_casings_pairs in Hin.
    destruct (1 <? length values)%nat eqn:E; [|now left].
    apply write_pairs_keys in Hin. destruct Hin as [Hin|Hin]; [now left|].
    right. exists key, values. split; [now left|]. split; [now apply Nat.ltb_lt|].
    now apply combine_snd_In in Hin.
  - right. exists key', values'. split; [now right|]. split; assumption.
Qed.

Lemma write_casings_keeps_keys multi_value_headers headers k :
  In k (dict_keys headers) ->
  In k (dict_keys (fold_left write_casings multi_value_headers headers)).
Proof.
  revert headers.
  induction multi_value_headers as [|[key values] m IH]; intros headers Hin;
    [assumption|].
  cbn [fold_left]. apply IH. rewrite write_casings_pairs.
  destruct (1 <? length values)%nat; [|assumption].
  apply write_pairs_keys. now left.
Qed.
End Writes.

(** (X2) Without [multiValueHeaders] in the event, [handle_headers] only
    adds: every key of the single-valued map of the partition is a key of the
    reply, every other key of the reply is a casing of a header that has more
    than one value, and a key that is no such casing keeps its value. *)
Theorem handle_headers_frame {B : Builtins} {H : AbstractHandler}
    (self : AwsAlb.t) (response_headers : list (bytes * bytes))
    (headers : dict str) (multi_value_headers : dict (list str)) :
  Event.multiValueHeaders (AwsAlb.trigger_event self) = None ->
  _handle_multi_value_headers response_headers = Ok (headers, multi_value_headers) ->
  exists reply_headers,
    AwsAlb.handle_headers self response_headers = Ok (reply_headers, [])
    /\ (forall k, In k (dict_keys headers) -> In k (dict_keys reply_headers))
    /\ (forall k, In k (dict_keys reply_headers) ->
          In k (dict_keys headers) \/
          exists key values, In (key, values) multi_value_headers /\
                             (1 < length values)%nat /\ In k (all_casings key))
    /\ (forall k,
          (forall key values, In (key, values) multi_value_headers ->
                              (1 < length values)%nat -> ~ In k (all_casings key)) ->
          dict_get reply_headers k = dict_get headers k).
Proof.
  intros Hmv Hp. rewrite (handle_headers_write_casings _ _ Hmv), Hp. cbn [bind].
  eexists. split; [reflexivity|]. split; [|split].
  - intros k. apply write_casings_keeps_keys.
  - intros k. apply write_casings_keys.
  - intros k. apply write_casings_frame.
Qed.

Lemma handle_headers_frame_witness :
  exists reply_headers,
    AwsAlb.handle_headers (H := spec_handler (fun _ _ => Ok ([], false)))
      (handler_of minimal_event) two_values_and_one = Ok (reply_headers, [])
    /\ dict_get reply_headers (lit "content-type") = Some (lit "text/plain").
Proof.
  assert (Hp : _handle_multi_value_headers
                 (AbstractHandler := spec_handler (fun _ _ => Ok ([], false)))
                 two_values_and_one
               = Ok ([(lit "content-type", lit "text/plain")],
                     [(lit "x", [lit "a"; lit "b"])])) by reflexivity.
  destruct (handle_headers_frame (H := spec_handler (fun _ _ => Ok ([], false)))
              (handler_of minimal_event) two_values_and_one
              [(lit "content-type", lit "text/plain")]
              [(lit "x", [lit "a"; lit "b"])] eq_refl Hp)
    as (reply_headers & Hr & _ & _ & Hframe).
  exists reply_headers. split; [exact Hr|].
  rewrite Hframe; [reflexivity|].
  intros key values [Heq|[]] _. injection Heq as <- <-.
  vm_compute. intuition discriminate.
Defined.



(** ** The request, field by field *)

Section RequestFields.
Context {B : Builtins}.

(** [request] returns when its five steps that can raise do not. *)
Lemma request_ok (self : AwsAlb.t) path http_method query_string
      server_name server_port port headers' :
  let event := AwsAlb.trigger_event self in
  let headers := AwsAlb.lower_headers event in
  Event.path event = Some path ->
  Event.httpMethod event = Some http_method ->
  AwsAlb.encode_query_string self = Ok query_string ->
  (if negb (contains Chr.colon (header_or headers (lit "host") (lit "mangum"))) then
     Ok (header_or headers (lit "host") (lit "mangum"),
         match dict_get headers (lit "x-forwarded-port") with
         | Some v => inr v
         | None => inl 80%Z
         end)
   else
     match split Chr.colon (header_or headers (lit "host") (lit "mangum")) with
     | [server_name; server_port] => Ok (server_name, inr server_port)
     | _ => Raise ValueError
     end) = Ok (server_name, server_port) ->
  AwsAlb.int server_port = Ok port ->
  mapM encode_pair headers = Ok headers' ->
  AwsAlb.request self =
  Ok {| Request.method := http_method;
        Request.headers := headers';
        Request.path := unquote (path_or_slash path);
        Request.scheme := header_or headers (lit "x-forwarded-proto") (lit "https");
        Request.query_string := query_string;
        Request.server := (server_name, port);
        Request.client := (header_or headers (lit "x-forwarded-for") [], 0%Z);
        Request.trigger_event := AwsAlb.trigger_event self;
        Request.trigger_context := AwsAlb.trigger_context self;
        Request.event_type := AwsAlb.TYPE |}.
Proof.
  intros event headers Hp Hm Hq Hsel Hint Hh.
  unfold AwsAlb.request. fold event. fold headers.
  rewrite Hp, Hm, Hq. cbn [bind].
  unfold header_or in Hsel. rewrite Hsel. cbn [bind]. rewrite Hint. cbn [bind].
  unfold encode_pair in Hh. rewrite Hh. cbn [bind].
  reflexivity.
Qed.

(** The request that [request] returns. *)
Lemma request_record (self : AwsAlb.t) (r : Request.t) :
  AwsAlb.request self = Ok r ->
  let headers := AwsAlb.lower_headers (AwsAlb.trigger_event self) in
  Request.scheme r = header_or headers (lit "x-forwarded-proto") (lit "https")
  /\ Request.client r = (header_or headers (lit "x-forwarded-for") [], 0%Z)
  /\ Request.trigger_event r = AwsAlb.trigger_event self
  /\ Request.trigger_context r = AwsAlb.trigger_context self
  /\ Request.event_type r = AwsAlb.TYPE.
Proof.
  intros Hr headers.
  destruct (request_inv _ _ Hr)
    as (path & m & qs & sn & sp & port & hs & Hp & Hm & Hq & Hsel & Hint & Hh & _).
  rewrite (request_ok self path m qs sn sp port hs Hp Hm Hq Hsel Hint Hh) in Hr.
  injection Hr as <-. cbn. repeat split; reflexivity.
Qed.

Lemma header_or_last_value (event : Event.t) (name default : str) :
  header_or (AwsAlb.lower_headers event) name default =
  match last_value name (source_headers event) with
  | Some v => v
  | None => default
  end.
Proof.
  unfold header_or. rewrite lower_headers_fold, dict_get_lower_fold.
  now destruct (last_value name (source_headers event)).
Qed.
End RequestFields.

Lemma utf8_decode_encode (s : str) (bs : bytes) :
  utf8_encode s = Ok bs -> utf8_decode bs = Ok s.
Proof.
  intros He. unfold utf8_decode.
  rewrite <- (app_nil_r bs), (utf8_scan_encode _ _ [] He). cbn [utf8_scan].
  rewrite app_nil_r. clear He. induction s as [|c s IH]; [reflexivity|].
  cbn [map mapM bind]. now rewrite IH.
Qed.



(** (X4) In the request, the client is the value of the last source header
    whose lower-cased name is [x-forwarded-for], with the port 0, and the
    scheme the value of the last whose lower-cased name is
    [x-forwarded-proto]; without such a header the client address is empty and
    the scheme is [https].  The event and the context are passed on as they
    are and the type of the event is [AWS_ALB]. *)
Theorem request_client_and_scheme {B : Builtins} (self : AwsAlb.t) (r : Request.t) :
  AwsAlb.request self = Ok r ->
  let source := source_headers (AwsAlb.trigger_event self) in
  Request.client r =
    (match last_value (lit "x-forwarded-for") source with
     | Some v => v
     | None => []
     end, 0%Z)
  /\ Request.scheme r =
       match last_value (lit "x-forwarded-proto") source with
       | Some v => v
       | None => lit "https"
       end
  /\ Request.trigger_event r = AwsAlb.trigger_event self
  /\ Request.trigger_context r = AwsAlb.trigger_context self
  /\ Request.event_type r = lit "AWS_ALB".
Proof.
  intros Hr source.
  destruct (request_record _ _ Hr) as (Hs & Hc & He & Hx & Ht).
  rewrite Hc, Hs, !header_or_last_value. auto.
Qed.

Lemma request_client_and_scheme_witness :
  exists r,
    AwsAlb.request (handler_of forwarded_event) = Ok r
    /\ Request.client r = (lit "10.0.0.2", 0%Z)
    /\ Request.scheme r = lit "http".
Proof.
  eexists. split; [reflexivity|].
  match goal with
  | |- Request.client ?r = _ /\ _ =>
      assert (Hr : AwsAlb.request (handler_of forwarded_event) = Ok r) by reflexivity;
      destruct (request_client_and_scheme (handler_of forwarded_event) r Hr)
        as (Hc & Hs & _)
  end.
  split; [exact Hc|exact Hs].
Defined.

(** (X5) With a [host] header the server of the request is named by it.  A
    host [name:port] gives the server [name] with the port [int(port)], and
    the [x-forwarded-port] header is not read; a host with no colon gives the
    server of that name with the port of [x-forwarded-port], or 80. *)
Theorem request_server_host {B : Builtins} (self : AwsAlb.t) (r : Request.t) (host : str) :
  AwsAlb.request self = Ok r ->
  let headers := AwsAlb.lower_headers (AwsAlb.trigger_event self) in
  dict_get headers (lit "host") = Some host ->
  (forall name port_text,
     host = name ++ Chr.colon :: port_text ->
     contains Chr.colon name = false -> contains Chr.colon port_text = false ->
     exists port, py_int port_text = Ok port /\ Request.server r = (name, port))
  /\ (contains Chr.colon host = false ->
      match dict_get headers (lit "x-forwarded-port") with
      | Some v => exists port, py_int v = Ok port /\ Request.server r = (host, port)
      | None => Request.server r = (host, 80%Z)
      end).
Proof.
  intros Hr headers Hhost.
  destruct (request_inv _ _ Hr)
    as (path & m & qs & sn & sp & port & hs & _ & _ & _ & Hsel & Hint & _ & _ & _ & _ & _ & Hs).
  cbv zeta in Hsel. fold headers in Hsel. rewrite Hhost in Hsel.
  split.
  - intros name port_text -> Hn Hp.
    rewrite contains_app in Hsel. cbn [contains existsb] in Hsel.
    rewrite N.eqb_refl, orb_true_r in Hsel. cbn [negb orb] in Hsel.
    rewrite (split_app_sep _ _ _ Hn), (split_no_sep _ _ Hp) in Hsel.
    injection Hsel as <- <-. exists port. split; assumption.
  - intros Hc. rewrite Hc in Hsel. cbn [negb] in Hsel. injection Hsel as <- <-.
    destruct (dict_get headers (lit "x-forwarded-port")) as [v|].
    + exists port. split; assumption.
    + cbn in Hint. injection Hint as <-. assumption.
Qed.

Lemma request_server_host_witness :
  exists r,
    AwsAlb.request (handler_of forwarded_event) = Ok r
    /\ exists port, ascii_int (lit "8443") = Ok port
                    /\ Request.server r = (lit "example.com", port).
Proof.
  eexists. split; [reflexivity|].
  match goal with
  | |- exists port, _ /\ Request.server ?r = _ =>
      assert (Hr : AwsAlb.request (handler_of forwarded_event) = Ok r) by reflexivity;
      destruct (request_server_host (handler_of forwarded_event) r
                  (lit "example.com:8443") Hr eq_refl) as [Hport _]
  end.
  apply (Hport (lit "example.com") (lit "8443")); reflexivity.
Defined.

(** (X6) With the keys [path] and [httpMethod] in the event and a query
    string that encodes, [request] still raises [ValueError] for a host with
    more than one colon, and raises what [int] raises for the port of the host
    or, for a host with no colon, of the [x-forwarded-port] header. *)
Theorem request_server_errors {B : Builtins} (self : AwsAlb.t)
    (path : option str) (http_method : str) (query_string : bytes) :
  Event.path (AwsAlb.trigger_event self) = Some path ->
  Event.httpMethod (AwsAlb.trigger_event self) = Some http_method ->
  AwsAlb.encode_query_string self = Ok query_string ->
  let headers := AwsAlb.lower_headers (AwsAlb.trigger_event self) in
  (forall host,
     dict_get headers (lit "host") = Some host ->
     (2 < length (split Chr.colon host))%nat ->
     AwsAlb.request self = Raise ValueError)
  /\ (forall host name port_text e,
        dict_get headers (lit "host") = Some host ->
        host = name ++ Chr.colon :: port_text ->
        contains Chr.colon name = false -> contains Chr.colon port_text = false ->
        py_int port_text = Raise e ->
        AwsAlb.request self = Raise e)
  /\ (forall v e,
        contains Chr.colon (header_or headers (lit "host") (lit "mangum")) = false ->
        dict_get headers (lit "x-forwarded-port") = Some v ->
        py_int v = Raise e ->
        AwsAlb.request self = Raise e).
Proof.
  intros Hp Hm Hq headers.
  assert (Hreq : forall sel,
    (if negb (contains Chr.colon (header_or headers (lit "host") (lit "mangum"))) then
       Ok (header_or headers (lit "host") (lit "mangum"),
           match dict_get headers (lit "x-forwarded-port") with
           | Some v => inr v
           | None => inl 80%Z
           end)
     else
       match split Chr.colon (header_or headers (lit "host") (lit "mangum")) with
       | [server_name; server_port] => Ok (server_name, inr server_port)
       | _ => Raise ValueError
       end) = sel ->
    AwsAlb.request self =
    match sel with
    | Ok (_, server_port) =>
        match AwsAlb.int server_port with
        | Ok _ => AwsAlb.request self
        | Raise e => Raise e
        end
    | Raise e => Raise e
    end).
  { intros sel <-. unfold AwsAlb.request. fold headers. unfold header_or.
    rewrite Hp, Hm, Hq. cbn [bind].
    match goal with
    | |- bind ?s _ = _ => destruct s as [[sn sp]|e]; cbn [bind]; [|reflexivity]
    end.
    destruct (AwsAlb.int sp); reflexivity. }
  split; [|split].
  - intros host Hhost Hlen.
    rewrite (Hreq (Raise ValueError)); [reflexivity|].
    unfold header_or. rewrite Hhost.
    destruct (contains Chr.colon host) eqn:Hc; cbn [negb].
    + destruct (split Chr.colon host) as [|a [|b [|c l]]]; cbn [length] in Hlen;
        reflexivity || lia.
    + rewrite (split_no_sep _ _ Hc) in Hlen. cbn in Hlen. lia.
  - intros host name port_text e Hhost -> Hn Ht He.
    rewrite (Hreq (Ok (name, inr port_text))).
    + cbn [AwsAlb.int]. now rewrite He.
    + unfold header_or. rewrite Hhost, contains_app. cbn [contains existsb].
      rewrite N.eqb_refl, orb_true_r. cbn [negb].
      now rewrite (split_app_sep _ _ _ Hn), (split_no_sep _ _ Ht).
  - intros v e Hc Hport He.
    rewrite (Hreq (Ok (header_or headers (lit "host") (lit "mangum"), inr v))).
    + cbn [AwsAlb.int]. now rewrite He.
    + now rewrite Hc, Hport.
Qed.

Lemma request_server_errors_witness :
  AwsAlb.request (handler_of ipv6_host_event) = Raise ValueError.
Proof.
  destruct (request_server_errors (handler_of ipv6_host_event)
              (Some (lit "/")) (lit "GET") [] eq_refl eq_refl eq_refl) as [Hmany _].
  apply (Hmany (lit "[::1]:8080")); [reflexivity|].
  vm_compute. lia.
Defined.



(** (X8) The headers of the request decode, pair by pair, to the
    lower-cased dictionary of the headers of the event, in its order: one pair
    for each lower-cased name, where the name first occurs. *)
Theorem request_headers_decode {B : Builtins} (self : AwsAlb.t) (r : Request.t) :
  AwsAlb.request self = Ok r ->
  mapM decode_pair (Request.headers r)
  = Ok (AwsAlb.lower_headers (AwsAlb.trigger_event self)).
Proof.
  intros Hr.
  destruct (request_inv _ _ Hr)
    as (path & m & qs & sn & sp & port & hs & _ & _ & _ & _ & _ & Hhs & _ & -> & _).
  apply mapM_Forall2 in Hhs. apply mapM_Forall2.
  induction Hhs as [|[k v] [k' v'] d hs' Henc Hrest IH]; constructor; [|assumption].
  unfold encode_pair in Henc.
  destruct (utf8_encode k) as [x|] eqn:Ek; [|discriminate].
  destruct (utf8_encode v) as [y|] eqn:Ev; [|discriminate].
  cbn in Henc. injection Henc as <- <-.
  unfold decode_pair.
  now rewrite (utf8_decode_encode _ _ Ek), (utf8_decode_encode _ _ Ev).
Qed.

Lemma request_headers_decode_witness :
  exists r,
    AwsAlb.request (handler_of (event_with_headers accept_twice)) = Ok r
    /\ mapM decode_pair (Request.headers r) = Ok [(lit "accept", lit "b")].
Proof.
  eexists. split; [reflexivity|].
  match goal with
  | |- mapM decode_pair (Request.headers ?r) = _ =>
      assert (Hr : AwsAlb.request (handler_of (event_with_headers accept_twice)) = Ok r)
        by reflexivity;
      exact (request_headers_decode (handler_of (event_with_headers accept_twice)) r Hr)
  end.
Defined.

(** ** When the codec raises *)

Lemma mapM_Raise {A X} (f : A -> result X) (l : list A) (e : exn) :
  mapM f l = Raise e -> exists a, In a l /\ f a = Raise e.
Proof.
  induction l as [|a l IH]; cbn; [discriminate|].
  destruct (f a) as [b|e'] eqn:Ea; cbn.
  - destruct (mapM f l) as [bs|e'']; cbn; [discriminate|].
    intros [= <-]. destruct (IH eq_refl) as [x [Hin Hx]]. eauto.
  - intros [= <-]. eauto.
Qed.

Lemma utf8_encode_char_cases (c : N) :
  if is_scalar c then exists bs, utf8_encode_char c = Ok bs
  else utf8_encode_char c = Raise UnicodeEncodeError.
Proof.
  unfold is_scalar, utf8_encode_char.
  repeat match goal with
         | |- context [?a <? ?b] => destruct (N.ltb_spec a b)
         | |- context [?a <=? ?b] => destruct (N.leb_spec a b)
         end; cbn [orb andb]; eauto; lia.
Qed.

(** [s.encode()] returns for well-formed text, and for nothing else. *)
Lemma utf8_encode_cases (s : str) :
  (well_formed s /\ exists bs, utf8_encode s = Ok bs)
  \/ (~ well_formed s /\ utf8_encode s = Raise UnicodeEncodeError).
Proof.
  unfold utf8_encode. induction s as [|c s IH].
  - left. split; [constructor|now exists []].
  - cbn [mapM]. pose proof (utf8_encode_char_cases c) as Hc.
    destruct (is_scalar c) eqn:Es.
    + destruct Hc as [b ->]. cbn [bind].
      destruct IH as [[Hwf [bs Hbs]]|[Hwf Hr]].
      * left. split; [now constructor|].
        destruct (mapM utf8_encode_char s); [|discriminate]. cbn. eauto.
      * right. split; [intros Hwf'; inversion Hwf'; auto|].
        destruct (mapM utf8_encode_char s); [discriminate|]. exact Hr.
    + rewrite Hc. right. split; [|reflexivity].
      intros Hwf'. inversion Hwf'. congruence.
Qed.

Lemma utf8_encode_Ok (s : str) (bs : bytes) :
  utf8_encode s = Ok bs -> well_formed s.
Proof.
  intros He. destruct (utf8_encode_cases s) as [[Hwf _]|[_ Hr]]; [assumption|congruence].
Qed.

Lemma utf8_encode_Raise (s : str) (e : exn) :
  utf8_encode s = Raise e -> ~ well_formed s /\ e = UnicodeEncodeError.
Proof.
  intros He. destruct (utf8_encode_cases s) as [[_ [bs Hbs]]|[Hwf Hr]]; [congruence|].
  split; [assumption|congruence].
Qed.

Lemma quote_cases (s safe : str) :
  (well_formed s /\ exists q, quote s safe = Ok q)
  \/ (~ well_formed s /\ quote s safe = Raise UnicodeEncodeError).
Proof.
  unfold quote. destruct (utf8_encode_cases s) as [[Hwf [bs ->]]|[Hwf ->]]; cbn; eauto.
Qed.

Lemma quote_plus_cases (s : str) :
  (well_formed s /\ exists q, quote_plus s = Ok q)
  \/ (~ well_formed s /\ quote_plus s = Raise UnicodeEncodeError).
Proof.
  unfold quote_plus. destruct (negb (contains Chr.space s)).
  - apply quote_cases.
  - destruct (quote_cases s [Chr.space]) as [[Hwf [q ->]]|[Hwf ->]]; cbn; eauto.
Qed.

(** [urlencode] returns for well-formed pairs, and for nothing else. *)
Lemma urlencode_cases (query : list (str * str)) :
  (pairs_well_formed query /\ exists s, urlencode query = Ok s /\ is_ascii s)
  \/ (~ pairs_well_formed query /\ urlencode query = Raise UnicodeEncodeError).
Proof.
  assert (Hm : (pairs_well_formed query
                /\ exists l, mapM (fun '(k, v) =>
                                     k' <- quote_plus k ;;
                                     v' <- quote_plus v ;;
                                     Ok (k' ++ [Chr.equals] ++ v')) query = Ok l)
               \/ (~ pairs_well_formed query
                   /\ mapM (fun '(k, v) =>
                              k' <- quote_plus k ;;
                              v' <- quote_plus v ;;
                              Ok (k' ++ [Chr.equals] ++ v')) query
                      = Raise UnicodeEncodeError)).
  { unfold pairs_well_formed. induction query as [|[k v] query IH].
    - left. split; [constructor|now exists []].
    - cbn [mapM].
      destruct (quote_plus_cases k) as [[Hk [k' ->]]|[Hk ->]]; cbn [bind].
      2:{ right. split; [|reflexivity]. intros Hwf. inversion Hwf. tauto. }
      destruct (quote_plus_cases v) as [[Hv [v' ->]]|[Hv ->]]; cbn [bind].
      2:{ right. split; [|reflexivity]. intros Hwf. inversion Hwf. tauto. }
      destruct IH as [[Hwf [l ->]]|[Hwf ->]]; cbn [bind].
      + left. split; [constructor; auto|eauto].
      + right. split; [|reflexivity]. intros Hwf'. inversion Hwf'. tauto. }
  destruct Hm as [[Hwf _]|[Hwf Hr]].
  - left. split; [assumption|].
    destruct (urlencode_pieces _ Hwf) as [pieces [Hu Hps]].
    eexists. split; [exact Hu|].
    apply is_ascii_join. now apply (encodes_pair_ascii _ _ Hps).
  - right. split; [assumption|]. unfold urlencode. now rewrite Hr.
Qed.

(** [encode_query_string] on the parameters it reads. *)
Lemma encode_query_string_selected (self : AwsAlb.t) :
  AwsAlb.encode_query_string self
  = (s <- urlencode (AwsAlb.query_pairs (selected_params (AwsAlb.trigger_event self))) ;;
     utf8_encode s).
Proof.
  unfold AwsAlb.encode_query_string, selected_params.
  destruct (Event.multiValueQueryStringParameters (AwsAlb.trigger_event self))
    as [[|item items]|]; try reflexivity;
    destruct (Event.queryStringParameters (AwsAlb.trigger_event self))
      as [[|item items]|]; reflexivity.
Qed.

(** (X9) [encode_query_string] returns when the decoded pairs of the
    parameters are well-formed text, and then the query string is ASCII;
    otherwise, with a surrogate in a decoded name or value, it raises
    [UnicodeEncodeError].  It raises nothing else. *)
Theorem encode_query_string_returns_or_raises (self : AwsAlb.t) :
  let query := AwsAlb.query_pairs (selected_params (AwsAlb.trigger_event self)) in
  (pairs_well_formed query
   /\ exists query_string,
        AwsAlb.encode_query_string self = Ok query_string /\ is_ascii query_string)
  \/ (~ pairs_well_formed query
      /\ AwsAlb.encode_query_string self = Raise UnicodeEncodeError).
Proof.
  intros query. rewrite encode_query_string_selected. fold query.
  destruct (urlencode_cases query) as [[Hwf [s [-> Hs]]]|[Hwf ->]]; cbn [bind].
  - left. split; [assumption|]. exists s. split; [|assumption].
    now apply utf8_encode_ascii.
  - right. now split.
Qed.

(** ** The characters of the query string *)

Lemma utf8_encode_octets (s : str) (bs : bytes) :
  utf8_encode s = Ok bs -> Forall (fun b => b < 256) bs.
Proof.
  intros He.
  destruct (utf8_encode_well_formed s (utf8_encode_Ok _ _ He)) as [bs' [He' Hbs]].
  congruence.
Qed.

Lemma plus_token_query_chars has_space b :
  b < 256 -> forallb query_char (plus_token has_space b) = true.
Proof.
  destruct has_space.
  - apply (forall_octets (fun b => forallb query_char (plus_token true b))).
    vm_compute; reflexivity.
  - apply (forall_octets (fun b => forallb query_char (plus_token false b))).
    vm_compute; reflexivity.
Qed.

Lemma quote_plus_query_chars (s q : str) :
  quote_plus s = Ok q -> Forall (fun c => query_char c = true) q.
Proof.
  intros Hq.
  destruct (utf8_encode_cases s) as [[_ [bs Hbs]]|[Hwf _]].
  2:{ destruct (quote_plus_cases s) as [[Hwf' _]|[_ Hr]]; [tauto|congruence]. }
  rewrite (quote_plus_tokens _ _ Hbs) in Hq. injection Hq as <-.
  pose proof (utf8_encode_octets _ _ Hbs) as Ho. clear Hbs.
  induction Ho as [|b bs Hb Ho IH]; [constructor|].
  cbn [flat_map]. apply Forall_app. split; [|assumption].
  apply Forall_forall. intros c Hin.
  pose proof (plus_token_query_chars (contains Chr.space s) b Hb) as Hall.
  rewrite forallb_forall in Hall. now apply Hall.
Qed.

Lemma Forall_join {P : N -> Prop} (sep : list N) (pieces : list (list N)) :
  Forall P sep -> Forall (Forall P) pieces -> Forall P (join sep pieces).
Proof.
  intros Hsep. induction 1 as [|piece pieces Hp Hps IH]; [constructor|].
  destruct pieces as [|piece' pieces]; [assumption|].
  change (join sep (piece :: piece' :: pieces))
    with (piece ++ sep ++ join sep (piece' :: pieces)).
  repeat (apply Forall_app; split); assumption.
Qed.

Lemma urlencode_query_chars (query : list (str * str)) (s : str) :
  urlencode query = Ok s -> Forall (fun c => query_char c = true) s.
Proof.
  unfold urlencode.
  destruct (mapM _ query) as [l|e] eqn:El; cbn [bind]; [|discriminate].
  intros [= <-]. apply Forall_join; [repeat constructor|].
  apply mapM_Forall2 in El.
  induction El as [|[k v] piece query l Hp Hl IH]; constructor; [|assumption].
  destruct (quote_plus k) as [k'|] eqn:Ek; cbn [bind] in Hp; [|discriminate].
  destruct (quote_plus v) as [v'|] eqn:Ev; cbn [bind] in Hp; [|discriminate].
  injection Hp as <-.
  cbn [app]. apply Forall_app. split; [now apply (quote_plus_query_chars k)|].
  constructor; [reflexivity|now apply (quote_plus_query_chars v)].
Qed.

(** (X10) Every byte of the query string [encode_query_string] returns
    is a letter, a digit, one of [_ . - ~], or one of [+ % = &]: no space, no
    other reserved character and no byte outside ASCII is in it, whatever the
    parameters hold. *)
Theorem encode_query_string_characters (self : AwsAlb.t) (query_string : bytes) :
  AwsAlb.encode_query_string self = Ok query_string ->
  Forall (fun c => query_char c = true) query_string.
Proof.
  rewrite encode_query_string_selected.
  destruct (urlencode _) as [s|e] eqn:Eu; cbn [bind]; [|discriminate].
  pose proof (urlencode_query_chars _ _ Eu) as Hs.
  destruct (urlencode_cases (AwsAlb.query_pairs
                               (selected_params (AwsAlb.trigger_event self))))
    as [[_ [s' [Hu Ha]]]|[_ Hr]]; [|congruence].
  assert (s' = s) as -> by congruence.
  rewrite (utf8_encode_ascii _ Ha). now intros [= <-].
Qed.

Lemma encode_query_string_characters_witness :
  Forall (fun c => query_char c = true)
         (lit "q=a+b+c&x+y=1%262%3D3&k=%E2%82%AC%EF%BF%BD").
Proof.
  apply (encode_query_string_characters (handler_of encoded_query_event)).
  reflexivity.
Defined.

(** ** Parameters that arrive encoded *)

Lemma mapM_app {A X} (f : A -> result X) (l1 l2 : list A) (r1 r2 : list X) :
  mapM f l1 = Ok r1 -> mapM f l2 = Ok r2 -> mapM f (l1 ++ l2) = Ok (r1 ++ r2).
Proof.
  rewrite !mapM_Forall2. apply Forall2_app.
Qed.

Lemma quote_plus_unquote_plus (s : str) :
  encoded s -> quote_plus (unquote_plus s) = Ok s.
Proof.
  intros [text Ht].
  destruct (quote_plus_cases text) as [[Hwf _]|[_ Hr]]; [|congruence].
  destruct (unquote_plus_quote_plus text Hwf) as (q & Hq & Hu & _).
  assert (q = s) as -> by congruence.
  now rewrite Hu.
Qed.

(** (X11) Parameters that arrive encoded, each name and value the
    [quote_plus] encoding of some text, are not encoded a second time: the
    query string is the parameters as they came, [name=value] for each value,
    joined with [&]. *)
Theorem encode_query_string_keeps_encoded (self : AwsAlb.t) :
  let params := selected_params (AwsAlb.trigger_event self) in
  params_encoded params ->
  AwsAlb.encode_query_string self = Ok (join [Chr.amp] (flat_map param_pieces params)).
Proof.
  intros params Henc. rewrite encode_query_string_selected. fold params.
  assert (Hm : mapM (fun '(k, v) =>
                       k' <- quote_plus k ;;
                       v' <- quote_plus v ;;
                       Ok (k' ++ [Chr.equals] ++ v')) (AwsAlb.query_pairs params)
               = Ok (flat_map param_pieces params)).
  { unfold AwsAlb.query_pairs.
    induction Henc as [|[key value] params' [Hk Hv] Hps IH]; [reflexivity|].
    cbn [flat_map]. apply mapM_app; [|exact IH].
    destruct value as [v|vs]; cbn [param_pieces].
    - cbn [mapM]. rewrite (quote_plus_unquote_plus _ Hk), (quote_plus_unquote_plus _ Hv).
      reflexivity.
    - induction Hv as [|v vs Hv Hvs IHv]; [reflexivity|].
      cbn [map mapM].
      rewrite (quote_plus_unquote_plus _ Hk), (quote_plus_unquote_plus _ Hv).
      cbn [bind]. rewrite IHv. reflexivity. }
  destruct (urlencode_cases (AwsAlb.query_pairs params))
    as [[_ [s [Hu Ha]]]|[_ Hr]]; unfold urlencode in *; rewrite Hm in *;
    cbn [bind] in *; [|discriminate].
  injection Hu as <-. now apply utf8_encode_ascii.
Qed.

Lemma encode_query_string_keeps_encoded_witness :
  AwsAlb.encode_query_string (handler_of encoded_once_event)
  = Ok (lit "q=a+b%26c&x%3Dy=%E2%82%AC").
Proof.
  apply (encode_query_string_keeps_encoded (handler_of encoded_once_event)).
  repeat constructor.
  - now exists (lit "q").
  - now exists (lit "a b&c").
  - now exists (lit "x=y").
  - now exists [0x20AC].
Defined.

(** ** What [request] raises *)

Lemma encode_query_string_Raise (self : AwsAlb.t) (e : exn) :
  AwsAlb.encode_query_string self = Raise e -> e = UnicodeEncodeError.
Proof.
  rewrite encode_query_string_selected.
  destruct (urlencode_cases (AwsAlb.query_pairs
                               (selected_params (AwsAlb.trigger_event self))))
    as [[_ [s [-> Ha]]]|[_ ->]]; cbn [bind].
  - rewrite (utf8_encode_ascii _ Ha). discriminate.
  - congruence.
Qed.

Lemma int_digits_Raise (s : str) :
  forall acc after_digit e, int_digits acc after_digit s = Raise e -> e = ValueError.
Proof.
  induction s as [|c s IH]; intros acc after_digit e; cbn [int_digits].
  - destruct after_digit; congruence.
  - destruct (between 48 57 c); [apply IH|].
    destruct ((c =? 95) && after_digit); [apply IH|congruence].
Qed.

Lemma ascii_int_Raise (s : str) (e : exn) :
  ascii_int s = Raise e -> e = ValueError.
Proof.
  unfold ascii_int. destruct (strip s) as [|c s']; [congruence|].
  destruct (c =? 45).
  - destruct (int_digits 0 false s') as [n|e'] eqn:Ed; cbn [bind]; [discriminate|].
    intros [= <-]. now apply (int_digits_Raise _ _ _ _ Ed).
  - destruct (c =? 43); apply int_digits_Raise.
Qed.

Lemma mapM_encode_pair_Raise (headers : dict str) (e : exn) :
  mapM encode_pair headers = Raise e -> e = UnicodeEncodeError.
Proof.
  intros Hm. apply mapM_Raise in Hm. destruct Hm as [[k v] [_ Hkv]].
  unfold encode_pair in Hkv.
  destruct (utf8_encode k) as [k'|e'] eqn:Ek; cbn [bind] in Hkv.
  - destruct (utf8_encode v) as [v'|e''] eqn:Ev; cbn [bind] in Hkv; [discriminate|].
    injection Hkv as <-. now apply (utf8_encode_Raise _ _ Ev).
  - injection Hkv as <-. now apply (utf8_encode_Raise _ _ Ek).
Qed.

(** (X12) With the lower case and [int] of ASCII text, [request] raises
    nothing but [KeyError] for the key [path] or [httpMethod],
    [UnicodeEncodeError] and [ValueError]. *)
Theorem request_raises_only (self : AwsAlb.t) (e : exn) :
  AwsAlb.request (B := ascii_builtins) self = Raise e ->
  e = KeyError (lit "path") \/ e = KeyError (lit "httpMethod")
  \/ e = UnicodeEncodeError \/ e = ValueError.
Proof.
  unfold AwsAlb.request.
  destruct (Event.path (AwsAlb.trigger_event self)) as [path|]; cbn [bind];
    [|intros [= <-]; auto].
  destruct (Event.httpMethod (AwsAlb.trigger_event self)) as [m|]; cbn [bind];
    [|intros [= <-]; auto].
  destruct (AwsAlb.encode_query_string self) as [qs|e'] eqn:Eq; cbn [bind].
  2:{ intros [= <-]. apply encode_query_string_Raise in Eq. auto. }
  match goal with
  | |- bind ?sel _ = _ -> _ => destruct sel as [[sn sp]|e'] eqn:Esel; cbn [bind]
  end.
  2:{ intros [= <-].
      destruct (negb (contains Chr.colon _)); [discriminate|].
      destruct (split Chr.colon _) as [|a [|b [|c l]]]; try discriminate;
        injection Esel as <-; auto. }
  destruct (AwsAlb.int sp) as [port|e'] eqn:Ei; cbn [bind].
  2:{ intros [= <-]. destruct sp as [n|s]; cbn in Ei; [discriminate|].
      apply ascii_int_Raise in Ei. auto. }
  match goal with
  | |- bind ?m _ = _ -> _ => destruct m as [hs|e'] eqn:Eh; cbn [bind]
  end; [discriminate|].
  intros [= <-].
  change (mapM encode_pair (AwsAlb.lower_headers (AwsAlb.trigger_event self))
          = Raise e') in Eh.
  apply mapM_encode_pair_Raise in Eh. auto.
Qed.

Lemma request_raises_only_witness :
  AwsAlb.request (handler_of surrogate_header_event) = Raise UnicodeEncodeError
  /\ (UnicodeEncodeError = KeyError (lit "path")
      \/ UnicodeEncodeError = KeyError (lit "httpMethod")
      \/ UnicodeEncodeError = UnicodeEncodeError \/ UnicodeEncodeError = ValueError).
Proof.
  assert (Hr : AwsAlb.request (handler_of surrogate_header_event)
               = Raise UnicodeEncodeError) by reflexivity.
  split; [exact Hr|].
  exact (request_raises_only (handler_of surrogate_header_event) UnicodeEncodeError Hr).
Defined.

(** ** The body as text *)

(** (X13) Without [isBase64Encoded], the body of well-formed text is its
    UTF-8 encoding, which decodes to the text again; ASCII text is its own
    encoding; text with a surrogate makes [body] raise
    [UnicodeEncodeError]. *)
Theorem body_text (self : AwsAlb.t) (s : str) :
  Event.isBase64Encoded (AwsAlb.trigger_event self) = false ->
  Event.body (AwsAlb.trigger_event self) = Some s ->
  (well_formed s ->
   exists bs, AwsAlb.body self = Ok bs /\ utf8_decode bs = Ok s)
  /\ (is_ascii s -> AwsAlb.body self = Ok s)
  /\ (~ well_formed s -> AwsAlb.body self = Raise UnicodeEncodeError).
Proof.
  intros Hb Hs.
  assert (Hbody : AwsAlb.body self = utf8_encode s).
  { unfold AwsAlb.body. rewrite Hb, Hs. now destruct s. }
  rewrite Hbody. split; [|split].
  - intros Hwf. destruct (utf8_encode_cases s) as [[_ [bs Hbs]]|[Hn _]]; [|tauto].
    exists bs. split; [assumption|now apply utf8_decode_encode].
  - apply utf8_encode_ascii.
  - intros Hn. destruct (utf8_encode_cases s) as [[Hwf _]|[_ Hr]]; [tauto|assumption].
Qed.

Lemma body_text_witness :
  exists bs,
    AwsAlb.body (handler_of (event_with_body (Some [0x20AC; 0x31]) false)) = Ok bs
    /\ utf8_decode bs = Ok [0x20AC; 0x31].
Proof.
  destruct (body_text (handler_of (event_with_body (Some [0x20AC; 0x31]) false))
              [0x20AC; 0x31] eq_refl eq_refl) as [Hwf _].
  apply Hwf. repeat constructor.
Defined.

(** ** The body as base64 *)

Lemma a2b_base64_loop_filter (s : bytes) :
  forall quad_pos leftchar pads,
    a2b_base64_loop quad_pos leftchar pads (filter base64_char s)
    = a2b_base64_loop quad_pos leftchar pads s.
Proof.
  induction s as [|c s IH]; intros quad_pos leftchar pads; [reflexivity|].
  cbn [filter]. unfold base64_char at 1.
  destruct (c =? BASE64_PAD) eqn:Ep; cbn [orb].
  - cbn [a2b_base64_loop]. rewrite Ep.
    destruct (2 <=? quad_pos)%nat; [|apply IH].
    destruct (4 <=? quad_pos + S pads)%nat; [reflexivity|apply IH].
  - destruct (table_a2b_base64 c) as [v|] eqn:Et.
    + cbn [a2b_base64_loop]. rewrite Ep, Et.
      destruct quad_pos as [|[|[|n]]]; now rewrite IH.
    + cbn [a2b_base64_loop]. rewrite Ep, Et. apply IH.
Qed.

(** (X14) With [isBase64Encoded], [body] reads the characters of the
    base64 alphabet and the pad and skips every other ASCII character, line
    breaks and spaces among them: it returns, or raises, what the payload
    without these gives.  A payload with a character outside ASCII raises
    [ValueError]. *)
Theorem body_base64_skips_other_characters (self : AwsAlb.t) (s : str) :
  Event.isBase64Encoded (AwsAlb.trigger_event self) = true ->
  Event.body (AwsAlb.trigger_event self) = Some s ->
  (is_ascii s -> AwsAlb.body self = a2b_base64 (filter base64_char s))
  /\ (~ is_ascii s -> AwsAlb.body self = Raise ValueError).
Proof.
  intros Hb Hs.
  assert (Hbody : AwsAlb.body self = b64decode (Str s)).
  { unfold AwsAlb.body. rewrite Hb, Hs. now destruct s. }
  rewrite Hbody. unfold b64decode, bytes_from_decode_data.
  destruct (forallb (fun c => c <? 0x80) s) eqn:Ea; cbn [bind].
  - split; [|intros Hn; exfalso; apply Hn].
    + intros _. unfold a2b_base64. now rewrite a2b_base64_loop_filter.
    + rewrite forallb_forall in Ea. apply Forall_forall. intros c Hin.
      now apply N.ltb_lt, Ea.
  - split; [|reflexivity]. intros Hascii.
    assert (forallb (fun c => c <? 0x80) s = true); [|congruence].
    apply forallb_forall. intros c Hin. apply N.ltb_lt.
    unfold is_ascii in Hascii. rewrite Forall_forall in Hascii. now apply Hascii.
Qed.

Lemma body_base64_skips_other_characters_witness :
  AwsAlb.body (handler_of wrapped_base64_event) = Ok (lit "hello").
Proof.
  destruct (body_base64_skips_other_characters (handler_of wrapped_base64_event)
              (lit "aGVs" ++ [10] ++ lit "bG8=" ++ [10]) eq_refl eq_refl) as [Hskip _].
  rewrite Hskip; [reflexivity|].
  repeat constructor.
Defined.

(** ** The path, encoded and decoded *)

Lemma quoter_slash_ok b :
  b < 256 ->
  token_ok b (quoter [47] b) && negb (contains Chr.plus (quoter [47] b)) = true.
Proof.
  apply (forall_octets
           (fun b => token_ok b (quoter [47] b)
                     && negb (contains Chr.plus (quoter [47] b)))).
  vm_compute; reflexivity.
Qed.

Lemma replace_absent a b s : contains a s = false -> replace a b s = s.
Proof.
  unfold contains, replace. induction s as [|c s IH]; cbn; [reflexivity|].
  intros Hc. apply orb_false_iff in Hc. destruct Hc as [Hc Hs].
  rewrite N.eqb_sym in Hc. rewrite Hc. now rewrite IH.
Qed.

Lemma quote_from_bytes_slash (bs : bytes) :
  Forall (fun b => b < 256) bs ->
  is_ascii (quote_from_bytes bs [47])
  /\ unquote_to_bytes (quote_from_bytes bs [47]) = bs.
Proof.
  unfold quote_from_bytes.
  induction 1 as [|b bs Hb Hbs [IHa IHu]]; [split; [constructor|reflexivity]|].
  cbn [flat_map].
  pose proof (quoter_slash_ok b Hb) as Hok.
  apply andb_prop in Hok. destruct Hok as [Hok Hplus].
  apply negb_true_iff in Hplus.
  split.
  - apply Forall_app. split; [|assumption].
    now apply (token_ok_chars b).
  - rewrite <- (replace_absent Chr.plus Chr.space _ Hplus) at 1.
    rewrite (token_ok_unquote b _ _ Hok). now rewrite IHu.
Qed.

(** [unquote] undoes [quote]. *)
Lemma unquote_quote (path quoted : str) :
  quote path [47] = Ok quoted -> unquote quoted = path.
Proof.
  unfold quote. destruct (utf8_encode path) as [bs|] eqn:Ebs; cbn [bind]; [|discriminate].
  intros [= <-].
  destruct (quote_from_bytes_slash bs (utf8_encode_octets _ _ Ebs)) as [Ha Hu].
  rewrite (unquote_ascii _ Ha), Hu.
  now apply utf8_decode_replace_encode.
Qed.

(** (X15) A path that was percent-encoded with [quote], which leaves [/]
    as it is, is decoded by [request]: the path of the request is the text
    that was encoded. *)
Theorem request_path_of_quoted {B : Builtins} (self : AwsAlb.t)
    (path quoted : str) (r : Request.t) :
  path <> [] ->
  quote path (lit "/") = Ok quoted ->
  Event.path (AwsAlb.trigger_event self) = Some (Some quoted) ->
  AwsAlb.request self = Ok r ->
  Request.path r = path.
Proof.
  intros Hne Hq Hp Hr.
  destruct (request_inv _ _ Hr)
    as (path' & m & qs & sn & sp & port & hs & Hp' & _ & _ & _ & _ & _ & _ & _ & -> & _).
  assert (path' = Some quoted) as -> by congruence.
  pose proof (unquote_quote _ _ Hq) as Hu.
  destruct quoted as [|c quoted]; [|exact Hu].
  cbn in Hu. congruence.
Qed.

Lemma request_path_of_quoted_witness :
  exists r,
    AwsAlb.request (handler_of (event_with_path (Some (Some (lit "/a%20b/%E2%82%AC")))))
    = Ok r
    /\ Request.path r = lit "/a b/" ++ [0x20AC].
Proof.
  eexists. split; [reflexivity|].
  apply (request_path_of_quoted
           (handler_of (event_with_path (Some (Some (lit "/a%20b/%E2%82%AC")))))
           (lit "/a b/" ++ [0x20AC]) (lit "/a%20b/%E2%82%AC"));
    [discriminate|reflexivity|reflexivity|reflexivity].
Defined.
